(** * clad::Graph<T> (include/clad/Differentiator/Graph.h)

    A shallow embedding of the dependency graph container and the proofs of
    its documented properties.

    Representation choices, all taken from the C++ source:
    - [std::vector<T> nodes] is a [list T], indexed by position;
    - [std::unordered_map<T, std::pair<bool,int>> nodeMap] is a
      [gmap T (bool * nat)]; ids are the vector's sizes at insertion time and
      are modelled as unbounded naturals (the [int] field holds a [size_t]
      unchanged as long as the vector has fewer than 2^31 elements);
    - [std::unordered_map<size_t, std::set<size_t>>] is a
      [gmap nat (gset nat)]; [operator[]] on a missing key inserts the empty
      set, which [touch] and the insert-based updates below reproduce;
    - [std::set<size_t>] is a [gset nat], traversed in ascending order;
    - the traversal order of [nodeMap] (a hash map) is not determined by the
      source, so the pruning loop takes it as an argument. *)

From stdpp Require Import gmap sorting list fin_maps relations strings pretty.

(* set_solver clears hypotheses that may already be gone. *)
Set Warnings "-clear-no-such-hyp".

(** ** Outcomes of the two traversals

    [OutOfBounds] stands for [nodes[i]] with [i >= nodes.size()], which the
    source does not check; [OutOfFuel] is the model's recursion bound. *)

Inductive result (A : Type) : Type :=
  | Done (a : A)
  | OutOfBounds
  | OutOfFuel.
Arguments Done {A} a.
Arguments OutOfBounds {A}.
Arguments OutOfFuel {A}.

Definition bind {A B} (r : result A) (k : A → result B) : result B :=
  match r with
  | Done a => k a
  | OutOfBounds => OutOfBounds
  | OutOfFuel => OutOfFuel
  end.

Notation "x ←r e1 ; e2" := (bind e1 (λ x, e2))
  (at level 100, e1 at next level, e2 at level 200, right associativity,
   format "x  ←r  e1 ;  '/' e2").

(** A range-based [for] whose body may fail. *)
Fixpoint forEach {S A} (body : A → S → result S) (l : list A) (s : S)
  : result S :=
  match l with
  | [] => Done s
  | x :: l' => s' ←r body x s; forEach body l' s'
  end.

(** ** Adjacency maps *)

(** The set stored under [k], empty when [k] has no entry. *)
Definition setAt (m : gmap nat (gset nat)) (k : nat) : gset nat :=
  default ∅ (m !! k).

(** [m[k]] used as an rvalue: creates the entry when it is missing. *)
Definition touch (m : gmap nat (gset nat)) (k : nat) : gmap nat (gset nat) :=
  <[k := setAt m k]> m.

(** [m[k].insert(x)] and [m[k].erase(x)]. *)
Definition insertAt (m : gmap nat (gset nat)) (k x : nat) :=
  <[k := {[x]} ∪ setAt m k]> m.
Definition eraseAt (m : gmap nat (gset nat)) (k x : nat) :=
  <[k := setAt m k ∖ {[x]}]> m.

(** Iteration order of a [std::set<size_t>]. *)
Definition ascending (s : gset nat) : list nat :=
  merge_sort (≤) (elements s).

(** [for (k : keys) m[k].erase(id)]. *)
Definition eraseAll (id : nat) (keys : list nat) (m : gmap nat (gset nat)) :=
  foldl (λ acc k, eraseAt acc k id) m keys.

(** Every id mentioned by a source set and an adjacency map: the finite
    universe that bounds both traversals. *)
Definition idsOf (src : gset nat) (adj : gmap nat (gset nat)) : gset nat :=
  src ∪ ⋃ ((map_to_list adj).*2).

(** ** The reachability loop of [removeNonReachable]

    The vector used as a stack is kept with its back at the head. *)

Definition pushNew (acc : list nat * gset nat) (dest : nat)
  : list nat * gset nat :=
  if decide (dest ∈ acc.2) then acc else (dest :: acc.1, {[dest]} ∪ acc.2).

Fixpoint reachLoop (fuel : nat) (adj : gmap nat (gset nat))
    (stack : list nat) (visited : gset nat)
  : result (gmap nat (gset nat) * gset nat) :=
  match fuel with
  | 0 => OutOfFuel
  | S fuel' =>
      match stack with
      | [] => Done (adj, visited)
      | node :: rest =>
          let adj' := touch adj node in
          let sv := foldl pushNew (rest, visited) (ascending (setAt adj' node)) in
          reachLoop fuel' adj' sv.1 sv.2
      end
  end.

Section Graph.
Context {T : Type} `{Countable T}.

Record Graph := mkGraph {
  nodes : list T;
  nodeMap : gmap T (bool * nat);
  adjList : gmap nat (gset nat);
  revAdjList : gmap nat (gset nat);
  sources : gset nat
}.

(** [Graph() = default]. *)
Definition emptyGraph : Graph := mkGraph [] ∅ ∅ ∅ ∅.

(** [nodeMap[v]] as an rvalue. *)
Definition infoAt (m : gmap T (bool * nat)) (v : T) : bool * nat :=
  default (false, 0) (m !! v).
Definition touchInfo (m : gmap T (bool * nat)) (v : T) : gmap T (bool * nat) :=
  <[v := infoAt m v]> m.

Definition addNode (node : T) (isSource : bool) (g : Graph) : Graph :=
  match nodeMap g !! node with
  | None =>
      let id := length (nodes g) in
      {| nodes := nodes g ++ [node];
         nodeMap := <[node := (true, id)]> (nodeMap g);
         adjList := <[id := ∅]> (adjList g);
         revAdjList := <[id := ∅]> (revAdjList g);
         sources := if isSource then {[id]} ∪ sources g else sources g |}
  | Some (false, id) =>
      {| nodes := nodes g;
         nodeMap := <[node := (true, id)]> (nodeMap g);
         adjList := adjList g;
         revAdjList := revAdjList g;
         sources := sources g |}
  | Some (true, _) => g
  end.

(** Both endpoints have an entry in [nodeMap] once [addNode] has run, so the
    two [nodeMap[...]] reads are plain lookups. *)
Definition addEdge (src dest : T) (g : Graph) : Graph :=
  let g2 := addNode dest false (addNode src false g) in
  let srcId := (infoAt (nodeMap g2) src).2 in
  let destId := (infoAt (nodeMap g2) dest).2 in
  {| nodes := nodes g2;
     nodeMap := nodeMap g2;
     adjList := insertAt (adjList g2) srcId destId;
     revAdjList := insertAt (revAdjList g2) destId srcId;
     sources := sources g2 |}.

Definition removeNode (node : T) (g : Graph) : Graph :=
  match nodeMap g !! node with
  | None => g
  | Some (_, id) =>
      let adj0 := touch (adjList g) id in
      let rev1 := eraseAll id (ascending (setAt adj0 id)) (revAdjList g) in
      let adj1 := <[id := ∅]> adj0 in
      let rev2 := touch rev1 id in
      let adj2 := eraseAll id (ascending (setAt rev2 id)) adj1 in
      {| nodes := nodes g;
         nodeMap := <[node := (false, id)]> (nodeMap g);
         adjList := adj2;
         revAdjList := <[id := ∅]> rev2;
         sources := sources g |}
  end.

(** [getNodes] is not [const]: [nodeMap[node]] creates a [(false, 0)] entry
    for a vector element the map does not know. *)
Definition getNodesStep (acc : list T * gmap T (bool * nat)) (node : T)
  : list T * gmap T (bool * nat) :=
  let nm := touchInfo acc.2 node in
  if (infoAt nm node).1 then (acc.1 ++ [node], nm) else (acc.1, nm).

Definition getNodes (g : Graph) : list T * Graph :=
  let r := foldl getNodesStep ([], nodeMap g) (nodes g) in
  (r.1, mkGraph (nodes g) r.2 (adjList g) (revAdjList g) (sources g)).

Definition isConnected (src dest : T) (g : Graph) : bool * Graph :=
  match nodeMap g !! src, nodeMap g !! dest with
  | Some (_, srcId), Some (_, destId) =>
      (bool_decide (destId ∈ setAt (adjList g) srcId),
       mkGraph (nodes g) (nodeMap g) (touch (adjList g) srcId)
               (revAdjList g) (sources g))
  | _, _ => (false, g)
  end.

(** The last loop of [removeNonReachable]: [order] is the sequence in which
    the iterator delivers the keys of [nodeMap]; the flag is read from the
    current map at each step. *)
Definition pruneStep (visited : gset nat) (g : Graph) (v : T) : Graph :=
  match nodeMap g !! v with
  | Some (true, id) => if decide (id ∈ visited) then g else removeNode v g
  | _ => g
  end.

Definition removeNonReachableIn (order : list T) (g : Graph) : result Graph :=
  let src := ascending (sources g) in
  let fuel := S (size (idsOf (sources g) (adjList g))) in
  av ←r reachLoop fuel (adjList g) (reverse src) (list_to_set src);
  Done (foldl (pruneStep av.2)
          (mkGraph (nodes g) (nodeMap g) av.1 (revAdjList g) (sources g))
          order).

(** The traversal order stdpp gives the map: one admissible order. *)
Definition removeNonReachable (g : Graph) : result Graph :=
  removeNonReachableIn (map_to_list (nodeMap g)).*1 g.

(** ** Topological sort *)

Record DfsState := mkDfs {
  dAdj : gmap nat (gset nat);
  dVisited : gset nat;
  dRes : list T
}.

Fixpoint dfs (fuel : nat) (ns : list T) (node : nat) (st : DfsState)
  : result DfsState :=
  match fuel with
  | 0 => OutOfFuel
  | S fuel' =>
      let adj' := touch (dAdj st) node in
      let st1 := mkDfs adj' ({[node]} ∪ dVisited st) (dRes st) in
      st2 ←r forEach (λ dest s,
                 if decide (dest ∈ dVisited s) then Done s
                 else dfs fuel' ns dest s)
               (ascending (setAt adj' node)) st1;
      match ns !! node with
      | Some v => Done (mkDfs (dAdj st2) (dVisited st2) (dRes st2 ++ [v]))
      | None => OutOfBounds
      end
  end.

Definition topologicalSort (reverseOrder : bool) (g : Graph)
  : result (list T * Graph) :=
  let fuel := S (size (idsOf (sources g) (adjList g))) in
  st ←r forEach (λ source s,
              if decide (source ∈ dVisited s) then Done s
              else dfs fuel (nodes g) source s)
           (ascending (sources g)) (mkDfs (adjList g) ∅ []);
  Done (if reverseOrder then dRes st else reverse (dRes st),
        mkGraph (nodes g) (nodeMap g) (dAdj st) (revAdjList g) (sources g)).

End Graph.
Arguments Graph T {_ _}.

(** ** Diagnostic output

    [print] writes to [std::cout]; the stream is kept as the list of the
    lines written, each ending in a newline. [toString] is the conversion
    [(std::string)node] the element type has to provide. Like the other
    queries, [print] goes through [operator[]] and returns the state. *)

Definition newline : string := String (Ascii.ascii_of_nat 10) EmptyString.

Section Print.
Context {T : Type} `{Countable T}.
Variable toString : T → string.

Definition nodeLine (src : gset nat) (node : T) (info : bool * nat) : string :=
  toString node +:+ ": #" +:+ pretty info.2
  +:+ (if decide (info.2 ∈ src) then " (source)" else EmptyString)
  +:+ newline.

Definition edgeLine (i dest : nat) : string :=
  pretty i +:+ " -> " +:+ pretty dest +:+ newline.

(** One round of the first loop. *)
Definition printNode (src : gset nat)
    (acc : list string * gmap T (bool * nat)) (node : T)
  : list string * gmap T (bool * nat) :=
  let nm := touchInfo acc.2 node in
  let info := infoAt nm node in
  if info.1 then (acc.1 ++ [nodeLine src node info], nm) else (acc.1, nm).

(** One round of the second loop, at position [i] of the vector. *)
Definition printEdges
    (acc : list string * gmap T (bool * nat) * gmap nat (gset nat))
    (iv : nat * T)
  : list string * gmap T (bool * nat) * gmap nat (gset nat) :=
  let nm := touchInfo acc.1.2 iv.2 in
  if (infoAt nm iv.2).1
  then let adj := touch acc.2 iv.1 in
       (acc.1.1 ++ map (edgeLine iv.1) (ascending (setAt adj iv.1)), nm, adj)
  else (acc.1.1, nm, acc.2).

Definition print (g : Graph T) : list string * Graph T :=
  let r1 := foldl (printNode (sources g)) ([], nodeMap g) (nodes g) in
  let r2 := foldl printEdges (r1, adjList g)
              (zip (seq 0 (length (nodes g))) (nodes g)) in
  (r2.1.1, mkGraph (nodes g) r2.1.2 r2.2 (revAdjList g) (sources g)).

End Print.

(** ** test/Misc/Graph.C *)

Module GraphTest.

Record Node := mkNode { name : string; id : Z }.

(** [Node::operator==]. *)
Definition nodeEq (a b : Node) : bool :=
  bool_decide (name a = name b) && bool_decide (id a = id b).

(** [Node::operator std::string]. *)
Definition nodeString (n : Node) : string := name n +:+ pretty (id n).

Global Instance Node_eq_dec : EqDecision Node.
Proof. solve_decision. Defined.

Global Instance Node_countable : Countable Node.
Proof.
  refine (inj_countable' (λ n, (name n, id n)) (λ p, mkNode p.1 p.2) _).
  by intros [].
Defined.

(** The loop of [main] that builds the chain [node0 -> ... -> node6]. *)
Definition buildStep (g : Graph Node) (i : Z) : Graph Node :=
  let n := mkNode "node" i in
  let g1 := if decide (i = 0%Z) then addNode n true g else g in
  addEdge n (mkNode "node" (i + 1)) g1.

Definition built : Graph Node :=
  foldl buildStep emptyGraph [0; 1; 2; 3; 4; 5]%Z.

(** [main] up to the second size check: [nodes] is the first [getNodes()]
    snapshot. *)
Definition withExtraEdges : option (Graph Node) :=
  let ns := (getNodes built).1 in
  let g := (getNodes built).2 in
  n0 ← ns !! 0; n3 ← ns !! 3; n4 ← ns !! 4;
  Some (addEdge n4 n0 (addEdge n0 n3 g)).

(** The rest of [main]: remove [nodes[4]], prune, print. *)
Definition mainOutput : option (list string) :=
  g ← withExtraEdges;
  n4 ← (getNodes built).1 !! 4;
  match removeNonReachable (removeNode n4 (getNodes g).2) with
  | Done g' => Some (print nodeString g').1
  | _ => None
  end.

End GraphTest.

(** ** The scenario of test/Misc/Graph.C, with [Node("node", i)] as [i] *)

Definition chain : Graph nat :=
  foldl (λ g i, addEdge i (S i) (if decide (i = 0) then addNode i true g else g))
        emptyGraph (seq 0 6).

Definition extended : Graph nat := addEdge 4 0 (addEdge 0 3 chain).

(** A source that is inserted and then removed. *)
Definition removedSource : Graph nat :=
  removeNode 0 (addNode 0 true emptyGraph).

(** One source with one successor. *)
Definition oneEdge : Graph nat := addEdge 0 1 (addNode 0 true emptyGraph).

(** The value [1], reached by an edge and then removed. *)
Definition removedHead : Graph nat := removeNode 1 oneEdge.

(** [removedHead] with its value [1] brought back by [addEdge(1, 0)]. *)
Definition reinsertedByEdge : Graph nat := addEdge 1 0 removedHead.

(** The test's graph once [node4] is removed. *)
Definition severed : Graph nat := removeNode 4 extended.

(** [severed] after pruning. *)
Definition pruned : Graph nat :=
  match removeNonReachable severed with
  | Done g => g
  | _ => severed
  end.

(** ** Specification vocabulary *)

(** A forward edge between ids. *)
Definition edge (adj : gmap nat (gset nat)) (a b : nat) : Prop :=
  b ∈ setAt adj a.

(** Ids reachable from a source set along forward edges. *)
Definition reachableFrom (adj : gmap nat (gset nat)) (src : gset nat)
    (x : nat) : Prop :=
  ∃ s, s ∈ src ∧ rtc (edge adj) s x.

(** No cycle passes through an id reachable from the sources. *)
Definition acyclicFrom (adj : gmap nat (gset nat)) (src : gset nat) : Prop :=
  ∀ x, reachableFrom adj src x → ¬ tc (edge adj) x x.

(** [x] occurs in [l] at an earlier position than [y]. *)
Definition before {A} (x y : A) (l : list A) : Prop :=
  ∃ l1 l2 l3, l = l1 ++ x :: l2 ++ y :: l3.

Section Spec.
Context {T : Type} `{Countable T}.

Definition known (g : Graph T) (v : T) : Prop := is_Some (nodeMap g !! v).

Definition active (g : Graph T) (v : T) : Prop :=
  ∃ i, nodeMap g !! v = Some (true, i).

Definition hasId (g : Graph T) (v : T) (i : nat) : Prop :=
  ∃ b, nodeMap g !! v = Some (b, i).

(** The representation invariant of a graph built through the public
    operations. *)
Record wf (g : Graph T) : Prop := mkWf {
  wf_nodup : NoDup (nodes g);
  wf_ids : ∀ v i, hasId g v i ↔ nodes g !! i = Some v;
  wf_adj_dom : ∀ k, k < length (nodes g) → is_Some (adjList g !! k);
  wf_rev_dom : ∀ k, k < length (nodes g) → is_Some (revAdjList g !! k);
  wf_sym : ∀ a b, b ∈ setAt (adjList g) a ↔ a ∈ setAt (revAdjList g) b;
  wf_bound : ∀ a b, b ∈ setAt (adjList g) a →
             a < length (nodes g) ∧ b < length (nodes g);
  wf_src : ∀ s, s ∈ sources g → s < length (nodes g);
  wf_inactive : ∀ v i, nodeMap g !! v = Some (false, i) →
                setAt (adjList g) i = ∅ ∧ setAt (revAdjList g) i = ∅
}.

(** The states a client can reach: the mutating operations applied to the
    default-constructed graph. The pruning loop may meet the keys of the hash
    map in any order. *)
Inductive constructed : Graph T → Prop :=
  | c_empty : constructed emptyGraph
  | c_addNode g v s : constructed g → constructed (addNode v s g)
  | c_addEdge g a b : constructed g → constructed (addEdge a b g)
  | c_removeNode g v : constructed g → constructed (removeNode v g)
  | c_removeNonReachable g order g' :
      constructed g →
      order ≡ₚ (map_to_list (nodeMap g)).*1 →
      removeNonReachableIn order g = Done g' →
      constructed g'.

(** One call of [addNode], [addEdge] or [removeNode]. *)
Inductive Call : Type :=
  | CallAddNode (v : T) (isSource : bool)
  | CallAddEdge (src dest : T)
  | CallRemoveNode (v : T).

Definition call (c : Call) (g : Graph T) : Graph T :=
  match c with
  | CallAddNode v s => addNode v s g
  | CallAddEdge a b => addEdge a b g
  | CallRemoveNode v => removeNode v g
  end.

(** Calls are applied left to right. *)
Definition calls (cs : list Call) (g : Graph T) : Graph T :=
  foldl (λ acc c, call c acc) g cs.

End Spec.
Arguments Call T : clear implicits.

(** The pruning loop and its effect on one entry of [nodeMap]. *)
Definition prunedEntry (visited : gset nat) (o : option (bool * nat))
  : option (bool * nat) :=
  match o with
  | Some (true, i) => if decide (i ∈ visited) then o else Some (false, i)
  | _ => o
  end.

(** ** The contract of the depth-first traversal

    [ns] is the node vector, [adj0] the adjacency map when the sort starts
    and [U] the ids the traversal can meet. *)

Section DfsContract.
Context {T : Type} `{Countable T}.
Variable ns : list T.
Variable adj0 : gmap nat (gset nat).
Variable U : gset nat.

(** What a traversal started on [roots] may assume: the adjacency map still
    denotes [adj0], the roots are ids of the graph, the unvisited part of the
    universe is smaller than the recursion bound, and every id that is
    visited but not in [black] (an id whose call is still open) reaches every
    root. *)
Definition dfsPre (black : gset nat) (roots : list nat) (bound : nat)
    (st : DfsState (T := T)) : Prop :=
  (∀ k, setAt (dAdj st) k = setAt adj0 k) ∧
  (∀ r, r ∈ roots → r ∈ U) ∧
  size (U ∖ dVisited st) < bound ∧
  (∀ g r, g ∈ dVisited st → g ∉ black → r ∈ roots → rtc (edge adj0) g r).

(** What it guarantees: [ids] are the ids it finished, in order, and [vs]
    the values it appended. *)
Definition dfsPost (black : gset nat) (roots : list nat)
    (st st' : DfsState (T := T)) (ids : list nat) (vs : list T) : Prop :=
  (∀ k, setAt (dAdj st') k = setAt adj0 k) ∧
  ((∀ k, k ∈ U → is_Some (dAdj st !! k)) → dAdj st' = dAdj st) ∧
  dVisited st' = list_to_set ids ∪ dVisited st ∧
  dRes st' = dRes st ++ vs ∧
  Forall2 (λ i v, ns !! i = Some v) ids vs ∧
  NoDup ids ∧
  (∀ x, x ∈ ids → x ∉ dVisited st) ∧
  (∀ x, x ∈ ids → ∃ r, r ∈ roots ∧ rtc (edge adj0) r x) ∧
  (∀ r, r ∈ roots → r ∈ dVisited st') ∧
  (∀ x y, x ∈ ids → edge adj0 x y → y ∈ dVisited st') ∧
  (∀ x y, x ∈ ids → edge adj0 x y →
          y ∈ black ∨ before y x ids ∨ rtc (edge adj0) y x).

Definition dfsSpec (fuel : nat) : Prop :=
  ∀ node st black,
    dfsPre black [node] fuel st → node ∉ dVisited st →
    ∃ st' ids vs,
      dfs fuel ns node st = Done st' ∧ dfsPost black [node] st st' ids vs.

End DfsContract.

(** ** Facts about the adjacency operations *)

Lemma setAt_insert m k s j :
  setAt (<[k := s]> m) j = if decide (k = j) then s else setAt m j.
Proof.
  unfold setAt. rewrite lookup_insert. by case_decide.
Qed.

Lemma setAt_touch m k j : setAt (touch m k) j = setAt m j.
Proof.
  unfold touch. rewrite setAt_insert. case_decide; by subst.
Qed.

Lemma touch_present m k : is_Some (m !! k) → touch m k = m.
Proof.
  intros [s Hs]. unfold touch, setAt. rewrite Hs. by apply insert_id.
Qed.

Lemma lookup_touch_is_Some m k j :
  is_Some (touch m k !! j) ↔ is_Some (m !! j) ∨ j = k.
Proof.
  unfold touch. rewrite lookup_insert. case_decide; subst.
  - split; eauto.
  - split; [eauto | intros [?|?]; done].
Qed.

Lemma setAt_insertAt m k x j :
  setAt (insertAt m k x) j
  = if decide (k = j) then {[x]} ∪ setAt m k else setAt m j.
Proof. apply setAt_insert. Qed.

Lemma setAt_eraseAt m k x j :
  setAt (eraseAt m k x) j
  = if decide (k = j) then setAt m k ∖ {[x]} else setAt m j.
Proof. apply setAt_insert. Qed.

Lemma setAt_empty k : setAt ∅ k = ∅.
Proof. unfold setAt. by rewrite lookup_empty. Qed.

Lemma setAt_is_Some m k x : x ∈ setAt m k → is_Some (m !! k).
Proof.
  unfold setAt. destruct (m !! k); [eauto | set_solver].
Qed.

Lemma ascending_perm s : ascending s ≡ₚ elements s.
Proof. apply merge_sort_Permutation. Qed.

Lemma elem_of_ascending s x : x ∈ ascending s ↔ x ∈ s.
Proof. rewrite ascending_perm. apply elem_of_elements. Qed.

Lemma NoDup_ascending s : NoDup (ascending s).
Proof. rewrite ascending_perm. apply NoDup_elements. Qed.

Lemma Sorted_ascending s : Sorted (≤) (ascending s).
Proof. apply (Sorted_merge_sort (≤)). Qed.

Lemma list_to_set_ascending s : list_to_set (ascending s) = s.
Proof.
  apply set_eq. intros x. by rewrite elem_of_list_to_set, elem_of_ascending.
Qed.

Lemma setAt_eraseAll id keys m k :
  setAt (eraseAll id keys m) k
  = if decide (k ∈ keys) then setAt m k ∖ {[id]} else setAt m k.
Proof.
  unfold eraseAll. revert m.
  induction keys as [|a keys IH]; intros m; cbn [foldl].
  - rewrite decide_False; [done | set_solver].
  - rewrite IH, !setAt_eraseAt.
    destruct (decide (a = k)) as [->|Hne].
    + rewrite (decide_True (P := k ∈ k :: keys)) by set_solver.
      destruct (decide (k ∈ keys)); set_solver.
    + destruct (decide (k ∈ keys)).
      * rewrite decide_True by set_solver. done.
      * rewrite decide_False by set_solver. done.
Qed.

Lemma eraseAll_is_Some id keys m k :
  is_Some (m !! k) → is_Some (eraseAll id keys m !! k).
Proof.
  unfold eraseAll. revert m.
  induction keys as [|a keys IH]; intros m Hk; cbn [foldl]; [done|].
  apply IH. unfold eraseAt. rewrite lookup_insert. case_decide; eauto.
Qed.

Lemma elem_of_idsOf_src src adj s : s ∈ src → s ∈ idsOf src adj.
Proof. unfold idsOf. set_solver. Qed.

Lemma elem_of_idsOf_adj src adj k x : x ∈ setAt adj k → x ∈ idsOf src adj.
Proof.
  unfold idsOf, setAt. intros Hx.
  destruct (adj !! k) as [s|] eqn:Hk; [|set_solver].
  apply elem_of_union_r, elem_of_union_list. exists s. split; [|done].
  apply list_elem_of_fmap. exists (k, s). split; [done|].
  by apply elem_of_map_to_list.
Qed.

(** ** Node and edge lifecycle: what each operation does to the fields *)

Section Lifecycle.
Context {T : Type} `{Countable T}.
Implicit Types (g : Graph T) (v w : T) (i j k : nat).

Lemma removeNode_unknown g v :
  nodeMap g !! v = None → removeNode v g = g.
Proof. intros Hv. unfold removeNode. by rewrite Hv. Qed.

Lemma removeNode_nodes g v : nodes (removeNode v g) = nodes g.
Proof.
  unfold removeNode. by destruct (nodeMap g !! v) as [[b i]|].
Qed.

Lemma removeNode_sources g v : sources (removeNode v g) = sources g.
Proof.
  unfold removeNode. by destruct (nodeMap g !! v) as [[b i]|].
Qed.

Lemma removeNode_nodeMap g v b i :
  nodeMap g !! v = Some (b, i) →
  nodeMap (removeNode v g) = <[v := (false, i)]> (nodeMap g).
Proof. intros Hv. unfold removeNode. by rewrite Hv. Qed.

Lemma removeNode_nodeMap_ne g v w :
  v ≠ w → nodeMap (removeNode v g) !! w = nodeMap g !! w.
Proof.
  intros Hne. unfold removeNode.
  destruct (nodeMap g !! v) as [[b i]|]; [|done].
  cbn [nodeMap]. by rewrite lookup_insert_ne.
Qed.

Lemma removeNode_adj g v b i k :
  nodeMap g !! v = Some (b, i) →
  setAt (adjList (removeNode v g)) k
  = if decide (k = i) then ∅
    else if decide (k ∈ setAt (revAdjList g) i)
         then setAt (adjList g) k ∖ {[i]} else setAt (adjList g) k.
Proof.
  intros Hv. unfold removeNode. rewrite Hv. cbn [adjList].
  rewrite setAt_eraseAll, setAt_insert, !setAt_touch, setAt_eraseAll.
  destruct (decide (k = i)) as [->|Hne].
  - rewrite !(decide_True (P := i = i)) by done.
    destruct (decide (i ∈ ascending _)); set_solver.
  - rewrite !(decide_False (P := i = k)) by done.
    destruct (decide (k ∈ setAt (revAdjList g) i)) as [Hin|Hin].
    + rewrite decide_True; [done|].
      apply elem_of_ascending.
      destruct (decide (i ∈ ascending _)); set_solver.
    + rewrite decide_False; [done|].
      rewrite elem_of_ascending.
      destruct (decide (i ∈ ascending _)); set_solver.
Qed.

Lemma removeNode_rev g v b i k :
  nodeMap g !! v = Some (b, i) →
  setAt (revAdjList (removeNode v g)) k
  = if decide (k = i) then ∅
    else if decide (k ∈ setAt (adjList g) i)
         then setAt (revAdjList g) k ∖ {[i]} else setAt (revAdjList g) k.
Proof.
  intros Hv. unfold removeNode. rewrite Hv. cbn [revAdjList].
  rewrite setAt_insert.
  destruct (decide (k = i)) as [->|Hne].
  - by rewrite decide_True.
  - rewrite (decide_False (P := i = k)) by done.
    rewrite setAt_touch, setAt_eraseAll, setAt_touch.
    destruct (decide (k ∈ setAt (adjList g) i)) as [Hin|Hin].
    + rewrite decide_True; [done|]. by apply elem_of_ascending.
    + rewrite decide_False; [done|]. by rewrite elem_of_ascending.
Qed.

Lemma removeNode_adj_is_Some g v k :
  is_Some (adjList g !! k) → is_Some (adjList (removeNode v g) !! k).
Proof.
  intros Hk. unfold removeNode.
  destruct (nodeMap g !! v) as [[b i]|]; [|done]. cbn [adjList].
  apply eraseAll_is_Some. rewrite lookup_insert.
  case_decide; [eauto|]. apply lookup_touch_is_Some. by left.
Qed.

Lemma removeNode_rev_is_Some g v k :
  is_Some (revAdjList g !! k) → is_Some (revAdjList (removeNode v g) !! k).
Proof.
  intros Hk. unfold removeNode.
  destruct (nodeMap g !! v) as [[b i]|]; [|done]. cbn [revAdjList].
  rewrite lookup_insert. case_decide; [eauto|].
  apply lookup_touch_is_Some. left. by apply eraseAll_is_Some.
Qed.

Lemma addNode_known_id g v s b i :
  nodeMap g !! v = Some (b, i) → nodeMap (addNode v s g) !! v = Some (true, i).
Proof.
  intros Hv. unfold addNode. rewrite Hv.
  destruct b; cbn [nodeMap]; [done|]. by rewrite lookup_insert_eq.
Qed.

Lemma addNode_new_id g v s :
  nodeMap g !! v = None →
  nodeMap (addNode v s g) !! v = Some (true, length (nodes g)).
Proof.
  intros Hv. unfold addNode. rewrite Hv. cbn [nodeMap].
  by rewrite lookup_insert_eq.
Qed.

Lemma addNode_nodeMap_ne g v w s :
  v ≠ w → nodeMap (addNode v s g) !! w = nodeMap g !! w.
Proof.
  intros Hne. unfold addNode.
  destruct (nodeMap g !! v) as [[[] i]|]; cbn [nodeMap];
    by rewrite ?lookup_insert_ne.
Qed.

Lemma addNode_known_fields g v s b i :
  nodeMap g !! v = Some (b, i) →
  nodes (addNode v s g) = nodes g ∧
  adjList (addNode v s g) = adjList g ∧
  revAdjList (addNode v s g) = revAdjList g ∧
  sources (addNode v s g) = sources g.
Proof.
  intros Hv. unfold addNode. rewrite Hv. by destruct b.
Qed.

Lemma addNode_is_Some g v s :
  ∃ i, nodeMap (addNode v s g) !! v = Some (true, i).
Proof.
  destruct (nodeMap g !! v) as [[b i]|] eqn:Hv.
  - exists i. by eapply addNode_known_id.
  - eexists. by apply addNode_new_id.
Qed.

End Lifecycle.

(** ** The reachability loop: frame and termination *)

Lemma pushNew_fold_visited dests stack visited :
  (foldl pushNew (stack, visited) dests).2 = list_to_set dests ∪ visited.
Proof.
  revert stack visited.
  induction dests as [|d dests IH]; intros stack visited; cbn [foldl].
  - cbn. set_solver.
  - unfold pushNew at 2. cbn [fst snd].
    destruct (decide (d ∈ visited)); rewrite IH; set_solver.
Qed.

Lemma pushNew_fold_stack dests stack visited x :
  x ∈ (foldl pushNew (stack, visited) dests).1 →
  x ∈ stack ∨ (x ∈ dests ∧ x ∉ visited).
Proof.
  revert stack visited.
  induction dests as [|d dests IH]; intros stack visited; cbn [foldl].
  - by left.
  - unfold pushNew at 2. cbn [fst snd].
    destruct (decide (d ∈ visited)); intros Hx; apply IH in Hx.
    + set_solver.
    + destruct Hx as [Hx|[Hx Hnv]]; [|set_solver].
      apply elem_of_cons in Hx as [->|Hx]; set_solver.
Qed.

Lemma pushNew_fold_measure (U : gset nat) dests stack visited :
  (∀ d, d ∈ dests → d ∈ U) →
  size (U ∖ (foldl pushNew (stack, visited) dests).2)
  + length (foldl pushNew (stack, visited) dests).1
  = size (U ∖ visited) + length stack.
Proof.
  revert stack visited.
  induction dests as [|d dests IH]; intros stack visited HU; cbn [foldl].
  - done.
  - unfold pushNew at 2 4. cbn [fst snd].
    destruct (decide (d ∈ visited)) as [Hin|Hin].
    + apply IH. intros; apply HU; set_solver.
    + rewrite IH by (intros; apply HU; set_solver). cbn [length].
      assert (Hd : d ∈ U) by (apply HU; set_solver).
      assert (Heq : U ∖ visited = {[d]} ∪ U ∖ ({[d]} ∪ visited)).
      { apply set_eq. intros y. destruct (decide (y = d)); set_solver. }
      rewrite Heq at 1.
      pose proof (size_union (C:=gset nat) {[d]} (U ∖ ({[d]} ∪ visited)))
        as Hs.
      rewrite Hs by set_solver. rewrite size_singleton. lia.
Qed.

Lemma reachLoop_frame fuel adj stack visited adj' visited' :
  reachLoop fuel adj stack visited = Done (adj', visited') →
  (∀ k, setAt adj' k = setAt adj k) ∧
  (∀ k, is_Some (adj !! k) → is_Some (adj' !! k)) ∧
  ((∀ k, k ∈ stack ∨ k ∈ idsOf ∅ adj → is_Some (adj !! k)) → adj' = adj).
Proof.
  revert adj stack visited.
  induction fuel as [|fuel IH]; intros adj stack visited; cbn [reachLoop];
    [done|].
  destruct stack as [|node rest]; [intros [= <- <-]; done|].
  intros Hrun. apply IH in Hrun as (Hset & Hdom & Hsame).
  split_and!.
  - intros k. by rewrite Hset, setAt_touch.
  - intros k Hk. apply Hdom, lookup_touch_is_Some. by left.
  - intros Hall.
    assert (Ht : touch adj node = adj).
    { apply touch_present, Hall. left. set_solver. }
    rewrite Ht in Hsame. apply Hsame.
    intros k [Hk|Hk]; [|apply Hall; by right].
    apply pushNew_fold_stack in Hk as [Hk|[Hk _]].
    + apply Hall. left. set_solver.
    + apply Hall. right. apply elem_of_ascending in Hk.
      by eapply elem_of_idsOf_adj.
Qed.

Lemma reachLoop_total (U : gset nat) fuel adj stack visited :
  (∀ a b, b ∈ setAt adj a → b ∈ U) →
  size (U ∖ visited) + length stack < fuel →
  ∃ r, reachLoop fuel adj stack visited = Done r.
Proof.
  revert adj stack visited.
  induction fuel as [|fuel IH]; intros adj stack visited HU Hm; [lia|].
  cbn [reachLoop]. destruct stack as [|node rest]; [eauto|].
  apply IH.
  - intros a b. rewrite setAt_touch. apply HU.
  - rewrite pushNew_fold_measure.
    + cbn [length] in Hm. lia.
    + intros d Hd. apply elem_of_ascending in Hd.
      rewrite setAt_touch in Hd. by eapply HU.
Qed.

(** ** The representation invariant is preserved *)

Section Invariant.
Context {T : Type} `{Countable T}.
Implicit Types (g : Graph T) (v w : T) (i j k : nat).

Lemma wf_empty : wf (emptyGraph (T := T)).
Proof.
  split; cbn.
  - constructor.
  - intros v i. unfold hasId. cbn. rewrite lookup_empty, lookup_nil.
    split; [intros [? ?]; done | done].
  - intros; lia.
  - intros; lia.
  - intros a b. by rewrite !setAt_empty.
  - intros a b. rewrite setAt_empty. set_solver.
  - set_solver.
  - intros v i. by rewrite lookup_empty.
Qed.

Lemma wf_id_lt g v b i :
  wf g → nodeMap g !! v = Some (b, i) → i < length (nodes g).
Proof.
  intros Hwf Hv. eapply lookup_lt_Some, (wf_ids g Hwf). by exists b.
Qed.

Lemma wf_id_inj g v w b b' i :
  wf g → nodeMap g !! v = Some (b, i) → nodeMap g !! w = Some (b', i) → v = w.
Proof.
  intros Hwf Hv Hw.
  assert (H1 : nodes g !! i = Some v) by (apply (wf_ids g Hwf); by exists b).
  assert (H2 : nodes g !! i = Some w) by (apply (wf_ids g Hwf); by exists b').
  congruence.
Qed.

Lemma wf_unknown_fresh g v :
  wf g → nodeMap g !! v = None → v ∉ nodes g.
Proof.
  intros Hwf Hv Hin. apply list_elem_of_lookup in Hin as [i Hi].
  apply (wf_ids g Hwf) in Hi as [b Hb]. congruence.
Qed.

Lemma wf_rev_bound g a b :
  wf g → a ∈ setAt (revAdjList g) b →
  a < length (nodes g) ∧ b < length (nodes g).
Proof. intros Hwf Hab. by apply (wf_sym g Hwf), (wf_bound g Hwf) in Hab. Qed.

Lemma wf_addNode g v s : wf g → wf (addNode v s g).
Proof.
  intros Hwf. unfold addNode.
  destruct (nodeMap g !! v) as [[[] i]|] eqn:Hv; [done| |].
  - (* reactivation *)
    destruct Hwf as [Hnd Hids Had Hrd Hsym Hbd Hsrc Hin].
    split; cbn [nodes nodeMap adjList revAdjList sources]; try done.
    + intros w j. rewrite <- Hids. unfold hasId. cbn [nodeMap].
      destruct (decide (v = w)) as [<-|Hne].
      * rewrite lookup_insert_eq, Hv. split; intros [b [= <-]]; subst; eauto.
      * by rewrite lookup_insert_ne.
    + intros w j. destruct (decide (v = w)) as [<-|Hne].
      * by rewrite lookup_insert_eq.
      * rewrite lookup_insert_ne by done. apply Hin.
  - (* first insertion *)
    pose proof (wf_unknown_fresh g v Hwf Hv) as Hfresh.
    destruct Hwf as [Hnd Hids Had Hrd Hsym Hbd Hsrc Hin].
    assert (Hrb : ∀ a b, a ∈ setAt (revAdjList g) b →
                         a < length (nodes g) ∧ b < length (nodes g)).
    { intros a b Hab. by apply Hsym, Hbd in Hab. }
    split; cbn [nodes nodeMap adjList revAdjList sources].
    + apply NoDup_app. split_and!; [done | set_solver | apply NoDup_singleton].
    + intros w j. unfold hasId. cbn [nodeMap].
      destruct (decide (v = w)) as [<-|Hne].
      * rewrite lookup_insert_eq. split.
        -- intros [b [= <- <-]]. by rewrite list_lookup_middle.
        -- intros Hj. exists true. f_equal. f_equal.
           destruct (decide (j < length (nodes g))) as [Hlt|Hge].
           ++ rewrite lookup_app_l in Hj by done.
              exfalso. apply Hfresh. by eapply list_elem_of_lookup_2.
           ++ apply lookup_lt_Some in Hj. rewrite length_app in Hj.
              cbn in Hj. lia.
      * rewrite lookup_insert_ne by done. fold (hasId g w j).
        rewrite Hids. split.
        -- intros Hj. rewrite lookup_app_l; [done|]. by eapply lookup_lt_Some.
        -- intros Hj.
           destruct (decide (j < length (nodes g))) as [Hlt|Hge].
           ++ by rewrite lookup_app_l in Hj.
           ++ rewrite lookup_app_r in Hj by lia.
              apply list_lookup_singleton_Some in Hj as [_ ?]. done.
    + intros k Hk. rewrite lookup_insert. case_decide; [eauto|].
      apply Had. rewrite length_app in Hk. cbn in Hk. lia.
    + intros k Hk. rewrite lookup_insert. case_decide; [eauto|].
      apply Hrd. rewrite length_app in Hk. cbn in Hk. lia.
    + intros a b. rewrite !setAt_insert.
      destruct (decide (length (nodes g) = a)) as [<-|Ha];
        destruct (decide (length (nodes g) = b)) as [<-|Hb]; try done.
      * split; [set_solver|]. intros Hab%Hrb. lia.
      * split; [|set_solver]. intros Hab%Hbd. lia.
    + intros a b. rewrite setAt_insert. rewrite length_app. cbn.
      case_decide; [set_solver|]. intros Hab%Hbd. lia.
    + intros x Hx. rewrite length_app. cbn.
      destruct s; [|apply Hsrc in Hx; lia].
      apply elem_of_union in Hx as [->%elem_of_singleton|Hx%Hsrc]; lia.
    + intros w j. rewrite !setAt_insert.
      destruct (decide (v = w)) as [<-|Hne].
      * by rewrite lookup_insert_eq.
      * rewrite lookup_insert_ne by done. intros Hw.
        repeat case_decide; try done; by apply Hin in Hw.
Qed.

Lemma removeNode_edge g v b i x y :
  wf g → nodeMap g !! v = Some (b, i) →
  y ∈ setAt (adjList (removeNode v g)) x
  ↔ y ∈ setAt (adjList g) x ∧ x ≠ i ∧ y ≠ i.
Proof.
  intros Hwf Hv. rewrite (removeNode_adj g v b i x Hv).
  pose proof (wf_sym g Hwf x i) as Hsym.
  destruct (decide (x = i)) as [->|Hx]; [set_solver|].
  destruct (decide (x ∈ setAt (revAdjList g) i)); set_solver.
Qed.

Lemma removeNode_redge g v b i x y :
  wf g → nodeMap g !! v = Some (b, i) →
  x ∈ setAt (revAdjList (removeNode v g)) y
  ↔ x ∈ setAt (revAdjList g) y ∧ x ≠ i ∧ y ≠ i.
Proof.
  intros Hwf Hv. rewrite (removeNode_rev g v b i y Hv).
  pose proof (wf_sym g Hwf i y) as Hsym.
  destruct (decide (y = i)) as [->|Hy]; [set_solver|].
  destruct (decide (y ∈ setAt (adjList g) i)); set_solver.
Qed.

Lemma wf_removeNode g v : wf g → wf (removeNode v g).
Proof.
  intros Hwf.
  destruct (nodeMap g !! v) as [[b i]|] eqn:Hv;
    [|by rewrite removeNode_unknown].
  pose proof (removeNode_edge g v b i) as Hedge.
  pose proof (removeNode_redge g v b i) as Hredge.
  pose proof (removeNode_adj g v b i) as Hadj.
  pose proof (removeNode_rev g v b i) as Hrev.
  split; rewrite ?removeNode_nodes, ?removeNode_sources.
  - apply Hwf.
  - intros w j. rewrite <- (wf_ids g Hwf). unfold hasId.
    rewrite (removeNode_nodeMap g v b i Hv).
    destruct (decide (v = w)) as [<-|Hne].
    + rewrite lookup_insert_eq, Hv.
      split; intros [b' [= <-]]; subst; eauto.
    + by rewrite lookup_insert_ne.
  - intros k Hk. by apply removeNode_adj_is_Some, (wf_adj_dom g Hwf).
  - intros k Hk. by apply removeNode_rev_is_Some, (wf_rev_dom g Hwf).
  - intros x y. rewrite Hedge, Hredge by done.
    rewrite (wf_sym g Hwf). tauto.
  - intros x y. rewrite Hedge by done. intros [Hxy _].
    by apply (wf_bound g Hwf).
  - apply Hwf.
  - intros w j. rewrite (removeNode_nodeMap g v b i Hv).
    destruct (decide (v = w)) as [<-|Hne].
    + rewrite lookup_insert_eq. intros [= <-].
      rewrite Hadj, Hrev by done. by rewrite !decide_True.
    + rewrite lookup_insert_ne by done. intros Hw.
      destruct (wf_inactive g Hwf w j Hw) as [Ha Hr].
      split; apply set_eq; intros x; split; set_solver.
Qed.

Lemma addEdge_ids g a b :
  ∃ i j,
    nodeMap (addNode b false (addNode a false g)) !! a = Some (true, i) ∧
    nodeMap (addNode b false (addNode a false g)) !! b = Some (true, j).
Proof.
  destruct (addNode_is_Some (addNode a false g) b false) as [j Hj].
  destruct (addNode_is_Some g a false) as [i Hi].
  exists i, j. split; [|done].
  destruct (decide (b = a)) as [->|Hne].
  - by eapply addNode_known_id.
  - by rewrite addNode_nodeMap_ne.
Qed.

Lemma addEdge_unfold g a b i j :
  nodeMap (addNode b false (addNode a false g)) !! a = Some (true, i) →
  nodeMap (addNode b false (addNode a false g)) !! b = Some (true, j) →
  addEdge a b g =
  let g2 := addNode b false (addNode a false g) in
  mkGraph (nodes g2) (nodeMap g2) (insertAt (adjList g2) i j)
          (insertAt (revAdjList g2) j i) (sources g2).
Proof.
  intros Ha Hb. unfold addEdge, infoAt. by rewrite Ha, Hb.
Qed.

Lemma wf_addEdge g a b : wf g → wf (addEdge a b g).
Proof.
  intros Hwf.
  destruct (addEdge_ids g a b) as (i & j & Ha & Hb).
  rewrite (addEdge_unfold g a b i j Ha Hb). cbn zeta.
  assert (Hwf2 : wf (addNode b false (addNode a false g)))
    by (by do 2 apply wf_addNode).
  set (g2 := addNode b false (addNode a false g)) in *.
  pose proof (wf_id_lt g2 a true i Hwf2 Ha) as Hi.
  pose proof (wf_id_lt g2 b true j Hwf2 Hb) as Hj.
  split; cbn [nodes nodeMap adjList revAdjList sources]; try apply Hwf2.
  - intros k Hk. unfold insertAt. rewrite lookup_insert.
    case_decide; [eauto|]. by apply (wf_adj_dom g2 Hwf2).
  - intros k Hk. unfold insertAt. rewrite lookup_insert.
    case_decide; [eauto|]. by apply (wf_rev_dom g2 Hwf2).
  - intros x y. rewrite !setAt_insertAt.
    pose proof (wf_sym g2 Hwf2 x y) as Hs.
    pose proof (wf_sym g2 Hwf2 i y) as Hs1.
    pose proof (wf_sym g2 Hwf2 x j) as Hs2.
    destruct (decide (i = x)) as [<-|Hx];
      destruct (decide (j = y)) as [<-|Hy]; set_solver.
  - intros x y. rewrite setAt_insertAt.
    case_decide; subst.
    + intros [->%elem_of_singleton|Hy%(wf_bound g2 Hwf2)]%elem_of_union;
        [done|tauto].
    + apply (wf_bound g2 Hwf2).
  - intros w k Hw. rewrite !setAt_insertAt.
    assert (i ≠ k).
    { intros ->. pose proof (wf_id_inj g2 a w _ _ k Hwf2 Ha Hw). congruence. }
    assert (j ≠ k).
    { intros ->. pose proof (wf_id_inj g2 b w _ _ k Hwf2 Hb Hw). congruence. }
    rewrite !decide_False by done. by apply (wf_inactive g2 Hwf2 w).
Qed.

Lemma wf_adj_ext g adj' :
  wf g →
  (∀ k, setAt adj' k = setAt (adjList g) k) →
  (∀ k, is_Some (adjList g !! k) → is_Some (adj' !! k)) →
  wf (mkGraph (nodes g) (nodeMap g) adj' (revAdjList g) (sources g)).
Proof.
  intros Hwf Hset Hdom.
  split; cbn [nodes nodeMap adjList revAdjList sources]; try apply Hwf.
  - intros k Hk. by apply Hdom, (wf_adj_dom g Hwf).
  - intros a b. rewrite Hset. apply Hwf.
  - intros a b. rewrite Hset. apply Hwf.
  - intros v i Hv. rewrite Hset. by apply (wf_inactive g Hwf v).
Qed.

Lemma wf_pruneStep visited g v : wf g → wf (pruneStep visited g v).
Proof.
  intros Hwf. unfold pruneStep.
  destruct (nodeMap g !! v) as [[[] i]|]; try done.
  case_decide; [done|]. by apply wf_removeNode.
Qed.

Lemma wf_prune visited order g :
  wf g → wf (foldl (pruneStep visited) g order).
Proof.
  revert g. induction order as [|v order IH]; intros g Hwf; cbn [foldl];
    [done|].
  by apply IH, wf_pruneStep.
Qed.

Lemma wf_removeNonReachableIn order g g' :
  wf g → removeNonReachableIn order g = Done g' → wf g'.
Proof.
  intros Hwf. unfold removeNonReachableIn.
  destruct (reachLoop _ _ _ _) as [[adj' vis]| |] eqn:Hloop; cbn; try done.
  intros [= <-]. apply reachLoop_frame in Hloop as (Hset & Hdom & _).
  by apply wf_prune, wf_adj_ext.
Qed.

(** Every state a client can reach satisfies the invariant. *)
Lemma constructed_wf g : constructed g → wf g.
Proof.
  induction 1;
    eauto using wf_empty, wf_addNode, wf_addEdge, wf_removeNode,
      wf_removeNonReachableIn.
Qed.


End Invariant.

(** ** Queries *)

Section Queries.
Context {T : Type} `{Countable T}.
Implicit Types (g : Graph T) (v w : T) (i j k : nat).

Lemma infoAt_touchInfo (m : gmap T (bool * nat)) v w :
  infoAt (touchInfo m v) w = infoAt m w.
Proof.
  unfold touchInfo, infoAt at 1 3. rewrite lookup_insert.
  case_decide; by subst.
Qed.

Lemma touchInfo_present (m : gmap T (bool * nat)) v :
  is_Some (m !! v) → touchInfo m v = m.
Proof.
  intros [x Hx]. unfold touchInfo, infoAt. rewrite Hx. by apply insert_id.
Qed.

Lemma infoAt_active g v : (infoAt (nodeMap g) v).1 = true ↔ active g v.
Proof.
  unfold infoAt, active.
  destruct (nodeMap g !! v) as [[[] i]|]; cbn; split; eauto;
    try done; by intros [? ?].
Qed.

Lemma getNodes_fold (m : gmap T (bool * nat)) (l res : list T) :
  (foldl getNodesStep (res, m) l).1
  = res ++ filter (λ v, (infoAt m v).1 = true) l ∧
  (∀ w, infoAt (foldl getNodesStep (res, m) l).2 w = infoAt m w) ∧
  ((∀ v, v ∈ l → is_Some (m !! v)) →
   (foldl getNodesStep (res, m) l).2 = m).
Proof.
  revert m res. induction l as [|a l IH]; intros m res; cbn [foldl].
  - split_and!; [by rewrite app_nil_r | done | done].
  - unfold getNodesStep at 2 4 6. cbn [fst snd].
    rewrite infoAt_touchInfo.
    destruct (IH (touchInfo m a) (res ++ [a])) as (IH1 & IH2 & IH3).
    destruct (IH (touchInfo m a) res) as (IH1' & IH2' & IH3').
    assert (Hf : filter (λ v, (infoAt (touchInfo m a) v).1 = true) l
                 = filter (λ v, (infoAt m v).1 = true) l).
    { apply list_filter_iff. intros x. by rewrite infoAt_touchInfo. }
    destruct (infoAt m a).1 eqn:Ha.
    + rewrite IH1, Hf. split_and!.
      * rewrite filter_cons_True by done. by rewrite <- app_assoc.
      * intros w. by rewrite IH2, infoAt_touchInfo.
      * intros Hall. rewrite IH3.
        -- apply touchInfo_present, Hall. set_solver.
        -- intros v Hv. rewrite touchInfo_present; apply Hall; set_solver.
    + rewrite IH1', Hf. split_and!.
      * rewrite filter_cons_False; [done|]. by rewrite Ha.
      * intros w. by rewrite IH2', infoAt_touchInfo.
      * intros Hall. rewrite IH3'.
        -- apply touchInfo_present, Hall. set_solver.
        -- intros v Hv. rewrite touchInfo_present; apply Hall; set_solver.
Qed.

(** [getNodes] lists the active values in insertion order. *)
Lemma getNodes_filter g :
  (getNodes g).1 = filter (λ v, (infoAt (nodeMap g) v).1 = true) (nodes g).
Proof.
  unfold getNodes. cbn [fst].
  by destruct (getNodes_fold (nodeMap g) (nodes g) []) as [-> _].
Qed.

Lemma elem_of_getNodes g v :
  v ∈ (getNodes g).1 ↔ v ∈ nodes g ∧ active g v.
Proof.
  rewrite getNodes_filter, list_elem_of_filter, infoAt_active. tauto.
Qed.

(** On a well-formed graph the queries leave the state as it is. *)
Lemma getNodes_state g : wf g → (getNodes g).2 = g.
Proof.
  intros Hwf. unfold getNodes. cbn [snd].
  destruct (getNodes_fold (nodeMap g) (nodes g) []) as (_ & _ & ->).
  - by destruct g.
  - intros v [i Hi]%list_elem_of_lookup.
    apply (wf_ids g Hwf) in Hi as [b Hb]. eauto.
Qed.

Lemma isConnected_state g a b : wf g → (isConnected a b g).2 = g.
Proof.
  intros Hwf. unfold isConnected.
  destruct (nodeMap g !! a) as [[ba i]|] eqn:Ha; [|done].
  destruct (nodeMap g !! b) as [[bb j]|] eqn:Hb; [|done].
  cbn [snd]. rewrite touch_present; [by destruct g|].
  eapply (wf_adj_dom g Hwf), wf_id_lt; eauto.
Qed.

Lemma isConnected_true g a b :
  (isConnected a b g).1 = true
  ↔ ∃ i j, hasId g a i ∧ hasId g b j ∧ j ∈ setAt (adjList g) i.
Proof.
  unfold isConnected, hasId.
  destruct (nodeMap g !! a) as [[ba i]|] eqn:Ha.
  - destruct (nodeMap g !! b) as [[bb j]|] eqn:Hb; cbn [fst].
    + rewrite bool_decide_eq_true. split.
      * intros Hj. exists i, j. eauto.
      * intros (i' & j' & [? [= <- <-]] & [? [= <- <-]] & Hj). done.
    + split; [done|]. intros (i' & j' & _ & [? ?] & _). done.
  - cbn. split; [done|]. intros (i' & j' & [? ?] & _). done.
Qed.

End Queries.

(** ** Properties of the node and edge lifecycle *)

Section LifecycleProperties.
Context {T : Type} `{Countable T}.
Implicit Types (g : Graph T) (v w : T) (i j k : nat).

Lemma addNode_hasId g v s w i : hasId g w i → hasId (addNode v s g) w i.
Proof.
  intros [b Hw]. destruct (decide (v = w)) as [->|Hne].
  - exists true. by eapply addNode_known_id.
  - exists b. by rewrite addNode_nodeMap_ne.
Qed.

Lemma removeNode_hasId g v w i : hasId g w i → hasId (removeNode v g) w i.
Proof.
  intros [b Hw]. destruct (decide (v = w)) as [->|Hne].
  - exists false. rewrite (removeNode_nodeMap g w b i Hw).
    by rewrite lookup_insert_eq.
  - exists b. by rewrite removeNode_nodeMap_ne.
Qed.

Lemma addEdge_nodeMap g a b :
  nodeMap (addEdge a b g) = nodeMap (addNode b false (addNode a false g)).
Proof. done. Qed.

Lemma addEdge_sources g a b :
  sources (addEdge a b g) = sources (addNode b false (addNode a false g)).
Proof. done. Qed.

Lemma addEdge_nodes g a b :
  nodes (addEdge a b g) = nodes (addNode b false (addNode a false g)).
Proof. done. Qed.

Lemma call_hasId c g w i : hasId g w i → hasId (call c g) w i.
Proof.
  intros Hw. destruct c as [v s|a b|v]; cbn [call].
  - by apply addNode_hasId.
  - unfold hasId. rewrite addEdge_nodeMap. by do 2 apply addNode_hasId.
  - by apply removeNode_hasId.
Qed.

Lemma calls_hasId cs g w i : hasId g w i → hasId (calls cs g) w i.
Proof.
  unfold calls. revert g.
  induction cs as [|c cs IH]; intros g Hw; cbn [foldl]; [done|].
  by apply IH, call_hasId.
Qed.

Lemma constructed_call c g : constructed g → constructed (call c g).
Proof. intros Hg. destruct c; cbn [call]; by constructor. Qed.

Lemma constructed_calls cs g : constructed g → constructed (calls cs g).
Proof.
  unfold calls. revert g.
  induction cs as [|c cs IH]; intros g Hg; cbn [foldl]; [done|].
  by apply IH, constructed_call.
Qed.

Lemma addNode_sources_old g v s i :
  i < length (nodes g) → i ∈ sources (addNode v s g) ↔ i ∈ sources g.
Proof.
  intros Hi. unfold addNode.
  destruct (nodeMap g !! v) as [[[] j]|]; cbn [sources]; try done.
  destruct s; [|done]. rewrite elem_of_union, elem_of_singleton.
  split; [intros [->|?]; [lia|done] | by right].
Qed.

Lemma addNode_length g v s : length (nodes g) ≤ length (nodes (addNode v s g)).
Proof.
  unfold addNode. destruct (nodeMap g !! v) as [[[] j]|]; cbn [nodes]; try done.
  rewrite length_app. lia.
Qed.

Lemma call_sources_old c g i :
  i < length (nodes g) → i ∈ sources (call c g) ↔ i ∈ sources g.
Proof.
  intros Hi. destruct c as [v s|a b|v]; cbn [call].
  - by apply addNode_sources_old.
  - rewrite addEdge_sources, !addNode_sources_old; [done..|].
    pose proof (addNode_length g a false). lia.
  - by rewrite removeNode_sources.
Qed.

(** C3. Adjacency symmetry: in every state reached from the empty graph by
    [addNode], [addEdge], [removeNode] and [removeNonReachable], [dest] is in
    the forward set of [src] exactly when [src] is in the reverse set of
    [dest]. *)
Theorem adjacency_symmetry g src dest :
  constructed g →
  dest ∈ setAt (adjList g) src ↔ src ∈ setAt (revAdjList g) dest.
Proof. intros Hg. apply wf_sym. by apply constructed_wf. Qed.

(** C4. Id stability: a value keeps the id of its first insertion through
    every later sequence of [addNode], [addEdge] and [removeNode] calls; a
    value seen for the first time receives the next natural number, the ids
    in use being exactly [0 .. n-1]; and no id belongs to two values. *)
Theorem id_stability g :
  constructed g →
  (∀ cs v i, hasId g v i → hasId (calls cs g) v i) ∧
  (∀ v s, ¬ known g v → hasId (addNode v s g) v (length (nodes g))) ∧
  (∀ i, (∃ v, hasId g v i) ↔ i < length (nodes g)) ∧
  (∀ v w i, hasId g v i → hasId g w i → v = w).
Proof.
  intros Hwf%constructed_wf. split_and!.
  - intros cs v i. apply calls_hasId.
  - intros v s Hv. exists true. apply addNode_new_id.
    by apply eq_None_not_Some.
  - intros i. rewrite <- lookup_lt_is_Some. unfold is_Some.
    by setoid_rewrite (wf_ids g Hwf).
  - intros v w i [b Hv] [b' Hw]. by eapply wf_id_inj.
Qed.

(** C5. Removal isolates: after [removeNode v] of a known value,
    [isConnected] answers false in both directions for every [x], and [v] is
    not among [getNodes]. *)
Theorem removal_isolates g v x :
  constructed g → known g v →
  (isConnected v x (removeNode v g)).1 = false ∧
  (isConnected x v (removeNode v g)).1 = false ∧
  v ∉ (getNodes (removeNode v g)).1.
Proof.
  intros Hwf%constructed_wf [[b i] Hv].
  assert (Hv' : nodeMap (removeNode v g) !! v = Some (false, i)).
  { rewrite (removeNode_nodeMap g v b i Hv). by rewrite lookup_insert_eq. }
  split_and!.
  - apply not_true_is_false.
    intros (i' & j & [b1 Hi] & _ & Hj)%isConnected_true.
    rewrite Hv' in Hi. injection Hi as <- <-.
    by apply (removeNode_edge g v b i _ _ Hwf Hv) in Hj as (_ & ? & _).
  - apply not_true_is_false.
    intros (j & i' & _ & [b1 Hi] & Hj)%isConnected_true.
    rewrite Hv' in Hi. injection Hi as <- <-.
    by apply (removeNode_edge g v b i _ _ Hwf Hv) in Hj as (_ & _ & ?).
  - intros [_ [j Hj]]%elem_of_getNodes. congruence.
Qed.

(** C8. Unknown values: [removeNode] of a value the graph has never seen
    returns the state unchanged, and [isConnected] returns false, leaving the
    state unchanged, as soon as one of its arguments is unknown. *)
Theorem unknown_values_degrade g v :
  ¬ known g v →
  removeNode v g = g ∧
  ∀ x, isConnected v x g = (false, g) ∧ isConnected x v g = (false, g).
Proof.
  intros Hv%eq_None_not_Some. split; [by apply removeNode_unknown|].
  intros x. unfold isConnected. rewrite Hv. split; [done|].
  by destruct (nodeMap g !! x) as [[? ?]|].
Qed.

(** C9. The [isSource] flag counts on first insertion only: [addNode v true]
    on a known value leaves the source set as it is, and no later sequence of
    calls changes whether the id of a known value is a source. *)
Theorem source_flag_first_insertion_only g v i :
  constructed g → hasId g v i →
  sources (addNode v true g) = sources g ∧
  ∀ cs, i ∈ sources (calls cs g) ↔ i ∈ sources g.
Proof.
  intros Hg [b Hv]. split.
  - by destruct (addNode_known_fields g v true b i Hv) as (_ & _ & _ & ->).
  - intros cs. unfold calls. revert g b Hg Hv.
    induction cs as [|c cs IH]; intros g b Hg Hv; cbn [foldl]; [done|].
    destruct (call_hasId c g v i (ex_intro _ b Hv)) as [b' Hv'].
    rewrite (IH (call c g) b' (constructed_call c g Hg) Hv').
    apply call_sources_old. eapply wf_id_lt; [by apply constructed_wf|done].
Qed.

Lemma addNode_setAt g v s k :
  wf g →
  setAt (adjList (addNode v s g)) k = setAt (adjList g) k ∧
  setAt (revAdjList (addNode v s g)) k = setAt (revAdjList g) k.
Proof.
  intros Hwf. unfold addNode.
  destruct (nodeMap g !! v) as [[[] i]|]; cbn [adjList revAdjList]; try done.
  rewrite !setAt_insert. case_decide as Hk; [subst k|done].
  split; symmetry; apply set_eq; intros x; split; try set_solver.
  - intros Hx%(wf_bound g Hwf). lia.
  - intros Hx%(wf_rev_bound g _ _ Hwf). lia.
Qed.

(** C10. [addEdge] reactivates a removed endpoint: a known but inactive
    endpoint is active after the call and listed by [getNodes], keeps its id,
    and its only incident edge is the one just added. *)
Theorem addEdge_reactivates g src dest v i :
  constructed g → v = src ∨ v = dest →
  nodeMap g !! v = Some (false, i) →
  let g' := addEdge src dest g in
  ∃ si di, hasId g' src si ∧ hasId g' dest di ∧
    nodeMap g' !! v = Some (true, i) ∧
    v ∈ (getNodes g').1 ∧
    (∀ y, y ∈ setAt (adjList g') i ↔ v = src ∧ y = di) ∧
    (∀ x, x ∈ setAt (revAdjList g') i ↔ v = dest ∧ x = si).
Proof.
  intros Hg Hend Hv g'. pose proof (constructed_wf g Hg) as Hwf.
  destruct (addEdge_ids g src dest) as (si & di & Hs & Hd).
  subst g'. rewrite (addEdge_unfold g src dest si di Hs Hd). cbn zeta.
  assert (Hwf1 : wf (addNode src false g)) by (by apply wf_addNode).
  assert (Hwf2 : wf (addNode dest false (addNode src false g)))
    by (by apply wf_addNode).
  assert (Hid : hasId (addNode dest false (addNode src false g)) v i).
  { do 2 apply addNode_hasId. by exists false. }
  destruct (addNode_setAt g src false i Hwf) as [Ha1 Hr1].
  destruct (addNode_setAt (addNode src false g) dest false i Hwf1)
    as [Ha2 Hr2].
  destruct (wf_inactive g Hwf v i Hv) as [Ha0 Hr0].
  set (g2 := addNode dest false (addNode src false g)) in *.
  assert (Hact : nodeMap g2 !! v = Some (true, i)).
  { destruct Hid as [b Hb]. destruct Hend as [->| ->]; congruence. }
  assert (Hsrc : si = i ↔ v = src).
  { split; [intros ->; by eapply (wf_id_inj g2) | intros ->; congruence]. }
  assert (Hdst : di = i ↔ v = dest).
  { split; [intros ->; by eapply (wf_id_inj g2) | intros ->; congruence]. }
  exists si, di. cbn [nodes nodeMap adjList revAdjList sources].
  split_and!.
  - by exists true.
  - by exists true.
  - done.
  - apply elem_of_getNodes. cbn [nodes]. split; [|by exists i].
    eapply list_elem_of_lookup_2, (wf_ids g2 Hwf2). by exists true.
  - intros y. rewrite setAt_insertAt.
    case_decide as Hsi.
    + rewrite Hsi, Ha2, Ha1, Ha0. set_solver.
    + rewrite Ha2, Ha1, Ha0. set_solver.
  - intros x. rewrite setAt_insertAt.
    case_decide as Hdi.
    + rewrite Hdi, Hr2, Hr1, Hr0. set_solver.
    + rewrite Hr2, Hr1, Hr0. set_solver.
Qed.


(** What [addEdge] does to an endpoint that is known but inactive, on any
    well-formed graph. *)
Lemma addEdge_inactive_endpoint g src dest v i :
  wf g → v = src ∨ v = dest →
  nodeMap g !! v = Some (false, i) →
  ∃ si di, hasId (addEdge src dest g) src si ∧
    hasId (addEdge src dest g) dest di ∧
    nodeMap (addEdge src dest g) !! v = Some (true, i) ∧
    (∀ y, y ∈ setAt (adjList (addEdge src dest g)) i ↔ v = src ∧ y = di) ∧
    (∀ x, x ∈ setAt (revAdjList (addEdge src dest g)) i ↔ v = dest ∧ x = si).
Proof.
  intros Hwf Hend Hv.
  destruct (addEdge_ids g src dest) as (si & di & Hs & Hd).
  rewrite (addEdge_unfold g src dest si di Hs Hd). cbn zeta.
  assert (Hwf1 : wf (addNode src false g)) by (by apply wf_addNode).
  assert (Hwf2 : wf (addNode dest false (addNode src false g)))
    by (by apply wf_addNode).
  assert (Hid : hasId (addNode dest false (addNode src false g)) v i).
  { do 2 apply addNode_hasId. by exists false. }
  destruct (addNode_setAt g src false i Hwf) as [Ha1 Hr1].
  destruct (addNode_setAt (addNode src false g) dest false i Hwf1)
    as [Ha2 Hr2].
  destruct (wf_inactive g Hwf v i Hv) as [Ha0 Hr0].
  set (g2 := addNode dest false (addNode src false g)) in *.
  assert (Hact : nodeMap g2 !! v = Some (true, i)).
  { destruct Hid as [b Hb]. destruct Hend as [->| ->]; congruence. }
  assert (Hsrc : si = i ↔ v = src).
  { split; [intros ->; by eapply (wf_id_inj g2) | intros ->; congruence]. }
  assert (Hdst : di = i ↔ v = dest).
  { split; [intros ->; by eapply (wf_id_inj g2) | intros ->; congruence]. }
  exists si, di. cbn [nodes nodeMap adjList revAdjList sources].
  split_and!; [by exists true|by exists true|done|..].
  - intros y. rewrite setAt_insertAt.
    case_decide as Hsi.
    + rewrite Hsi, Ha2, Ha1, Ha0. set_solver.
    + rewrite Ha2, Ha1, Ha0. set_solver.
  - intros x. rewrite setAt_insertAt.
    case_decide as Hdi.
    + rewrite Hdi, Hr2, Hr1, Hr0. set_solver.
    + rewrite Hr2, Hr1, Hr0. set_solver.
Qed.

(** C6, amended. Reinsertion does not restore removed edges. After
    [removeNode v], [addNode v] (with either flag) leaves [v] active under
    its original id with empty forward and reverse sets, connected to
    nothing. When the value comes back through [addEdge], it is active
    under its original id and the edge just added is its only one: its sets
    are not empty, but none of the removed edges is back. *)
Theorem reinsertion_restores_no_removed_edge g v i :
  constructed g → hasId g v i →
  (∀ s,
     nodeMap (addNode v s (removeNode v g)) !! v = Some (true, i) ∧
     setAt (adjList (addNode v s (removeNode v g))) i = ∅ ∧
     setAt (revAdjList (addNode v s (removeNode v g))) i = ∅ ∧
     ∀ x, (isConnected v x (addNode v s (removeNode v g))).1 = false ∧
          (isConnected x v (addNode v s (removeNode v g))).1 = false) ∧
  (∀ src dest, v = src ∨ v = dest →
     ∃ si di,
       hasId (addEdge src dest (removeNode v g)) src si ∧
       hasId (addEdge src dest (removeNode v g)) dest di ∧
       nodeMap (addEdge src dest (removeNode v g)) !! v = Some (true, i) ∧
       (∀ y, y ∈ setAt (adjList (addEdge src dest (removeNode v g))) i
             ↔ v = src ∧ y = di) ∧
       (∀ x, x ∈ setAt (revAdjList (addEdge src dest (removeNode v g))) i
             ↔ v = dest ∧ x = si)).
Proof.
  intros Hg [b Hv].
  pose proof (constructed_wf g Hg) as Hwf.
  assert (Hv' : nodeMap (removeNode v g) !! v = Some (false, i)).
  { rewrite (removeNode_nodeMap g v b i Hv). by rewrite lookup_insert_eq. }
  split.
  - intros s. set (g' := addNode v s (removeNode v g)).
    destruct (addNode_known_fields (removeNode v g) v s false i Hv')
      as (Hn & Ha & Hr & Hs).
    assert (Hid : nodeMap g' !! v = Some (true, i))
      by (by eapply addNode_known_id).
    assert (Hadj : setAt (adjList g') i = ∅).
    { subst g'. rewrite Ha, (removeNode_adj g v b i i Hv).
      by rewrite decide_True. }
    split_and!; try done.
    + subst g'. rewrite Hr, (removeNode_rev g v b i i Hv).
      by rewrite decide_True.
    + intros x. split; apply not_true_is_false.
      * intros (i' & j & [b1 Hi] & _ & Hj)%isConnected_true.
        rewrite Hid in Hi. injection Hi as <- <-. set_solver.
      * intros (j & i' & _ & [b1 Hi] & Hj)%isConnected_true.
        rewrite Hid in Hi. injection Hi as <- <-. subst g'.
        rewrite Ha in Hj.
        by apply (removeNode_edge g v b i _ _ Hwf Hv) in Hj as (_ & _ & ?).
  - intros src dest Hend.
    apply addEdge_inactive_endpoint; [by apply wf_removeNode|done..].
Qed.

End LifecycleProperties.

(** ** Reachability pruning *)

Lemma pushNew_fold_stack_iff dests stack visited x :
  x ∈ (foldl pushNew (stack, visited) dests).1
  ↔ x ∈ stack ∨ (x ∈ dests ∧ x ∉ visited).
Proof.
  split; [apply pushNew_fold_stack|].
  revert stack visited.
  induction dests as [|d dests IH]; intros stack visited; cbn [foldl].
  - intros [?|[?%elem_of_nil ?]]; done.
  - unfold pushNew at 2. cbn [fst snd].
    destruct (decide (d ∈ visited)) as [Hd|Hd]; intros Hx; apply IH.
    + destruct Hx as [?|[[->|?]%elem_of_cons ?]]; [eauto|done|eauto].
    + destruct (decide (x = d)) as [->|Hne]; [left; set_solver|].
      destruct Hx as [?|[[->|?]%elem_of_cons ?]]; [left|done|right];
        set_solver.
Qed.

Lemma edge_touch adj k a b : edge (touch adj k) a b ↔ edge adj a b.
Proof. unfold edge. by rewrite setAt_touch. Qed.

Lemma rtc_edge_ext adj adj' a b :
  (∀ k, setAt adj' k = setAt adj k) →
  rtc (edge adj') a b → rtc (edge adj) a b.
Proof.
  intros Hext. induction 1 as [|x y z Hxy _ IH]; [done|].
  eapply rtc_l; [|done]. unfold edge in *. by rewrite <- Hext.
Qed.

(** What the loop has visited when it stops: everything it started with,
    only ids reachable from the stack, and all successors of every id that
    went through the stack. *)
Lemma reachLoop_spec fuel adj stack visited adj' vis' :
  reachLoop fuel adj stack visited = Done (adj', vis') →
  (∀ x, x ∈ stack → x ∈ visited) →
  (∀ x, x ∈ visited → x ∈ vis') ∧
  (∀ x, x ∈ vis' → x ∈ visited ∨ ∃ s, s ∈ stack ∧ rtc (edge adj) s x) ∧
  (∀ x, x ∈ vis' →
        (x ∈ visited ∧ x ∉ stack) ∨ ∀ y, edge adj x y → y ∈ vis').
Proof.
  revert adj stack visited.
  induction fuel as [|fuel IH]; intros adj stack visited; cbn [reachLoop];
    [done|].
  destruct stack as [|node rest].
  { intros [= <- <-] _. split_and!; [done|by left|].
    intros x Hx. left. split; [done|]. apply not_elem_of_nil. }
  intros Hrun Hstack.
  set (dests := ascending (setAt (touch adj node) node)) in *.
  assert (Hdests : ∀ y, y ∈ dests ↔ edge adj node y).
  { intros y. unfold dests, edge. by rewrite elem_of_ascending, setAt_touch. }
  pose proof (pushNew_fold_visited dests rest visited) as Hvis2.
  pose proof (pushNew_fold_stack_iff dests rest visited) as Hst2.
  destruct (foldl pushNew (rest, visited) dests) as [stack2 vis2].
  cbn [fst snd] in *. subst vis2.
  apply IH in Hrun as (HA & HB & HC).
  2:{ intros x [Hx|[Hx _]]%Hst2.
      - apply elem_of_union_r, Hstack. set_solver.
      - apply elem_of_union_l. by apply elem_of_list_to_set. }
  split_and!.
  - intros x Hx. apply HA. set_solver.
  - intros x Hx. apply HB in Hx as [Hx|(s & Hs & Hsx)].
    + apply elem_of_union in Hx as [Hx%elem_of_list_to_set|Hx]; [|by left].
      right. exists node. split; [set_solver|].
      apply rtc_once. by apply Hdests.
    + right. apply (rtc_edge_ext adj) in Hsx; [|apply setAt_touch].
      apply Hst2 in Hs as [Hs|[Hs _]].
      * exists s. split; [set_solver|done].
      * exists node. split; [set_solver|].
        eapply rtc_l; [by apply Hdests|done].
  - intros x Hx. apply HC in Hx as [[Hx Hnst]|Hcl].
    + destruct (decide (x = node)) as [->|Hne].
      * right. intros y Hy. apply HA, elem_of_union_l, elem_of_list_to_set.
        by apply Hdests.
      * left. apply elem_of_union in Hx as [Hx%elem_of_list_to_set|Hx].
        -- destruct (decide (x ∈ visited)) as [Hv|Hv].
           ++ split; [done|]. intros [?|?]%elem_of_cons; [done|].
              apply Hnst, Hst2. by left.
           ++ exfalso. apply Hnst, Hst2. by right.
        -- split; [done|]. intros [?|?]%elem_of_cons; [done|].
           apply Hnst, Hst2. by left.
    + right. intros y Hy. apply Hcl. by apply edge_touch.
Qed.

Lemma prunedEntry_idem visited o :
  prunedEntry visited (prunedEntry visited o) = prunedEntry visited o.
Proof.
  destruct o as [[[] i]|]; cbn; try done.
  destruct (decide (i ∈ visited)) as [Hi|Hi]; cbn; [|done].
  by rewrite decide_True.
Qed.

Section Pruning.
Context {T : Type} `{Countable T}.
Implicit Types (g : Graph T) (v w : T) (i j k : nat).

Lemma pruneStep_nodeMap visited g a v :
  nodeMap (pruneStep visited g a) !! v
  = if decide (a = v) then prunedEntry visited (nodeMap g !! v)
    else nodeMap g !! v.
Proof.
  unfold pruneStep. destruct (decide (a = v)) as [->|Hne].
  - destruct (nodeMap g !! v) as [[[] i]|] eqn:Hv; cbn; rewrite ?Hv; try done.
    destruct (decide (i ∈ visited)); [done|].
    rewrite (removeNode_nodeMap g v true i Hv). by rewrite lookup_insert_eq.
  - destruct (nodeMap g !! a) as [[[] i]|] eqn:Ha; try done.
    destruct (decide (i ∈ visited)); [done|].
    by apply removeNode_nodeMap_ne.
Qed.

Lemma prune_nodeMap visited order g v :
  nodeMap (foldl (pruneStep visited) g order) !! v
  = if decide (v ∈ order) then prunedEntry visited (nodeMap g !! v)
    else nodeMap g !! v.
Proof.
  revert g. induction order as [|a order IH]; intros g; cbn [foldl].
  - rewrite decide_False; [done|apply not_elem_of_nil].
  - rewrite IH, pruneStep_nodeMap.
    destruct (decide (a = v)) as [->|Hne].
    + rewrite (decide_True (P := v ∈ v :: order)) by set_solver.
      rewrite prunedEntry_idem. by destruct (decide (v ∈ order)).
    + destruct (decide (v ∈ order)).
      * by rewrite decide_True by set_solver.
      * by rewrite decide_False by set_solver.
Qed.

Lemma prune_nodes visited order g :
  nodes (foldl (pruneStep visited) g order) = nodes g.
Proof.
  revert g. induction order as [|a order IH]; intros g; cbn [foldl]; [done|].
  rewrite IH. unfold pruneStep.
  destruct (nodeMap g !! a) as [[[] i]|]; try done.
  destruct (decide (i ∈ visited)); [done|apply removeNode_nodes].
Qed.

Lemma size_ascending s : length (ascending s) = size s.
Proof. by rewrite ascending_perm. Qed.

(** The loop stops with the ids reachable from the sources. *)
Lemma removeNonReachable_visited g :
  ∃ adj' vis,
    reachLoop (S (size (idsOf (sources g) (adjList g)))) (adjList g)
      (reverse (ascending (sources g)))
      (list_to_set (ascending (sources g))) = Done (adj', vis) ∧
    (∀ k, setAt adj' k = setAt (adjList g) k) ∧
    (∀ k, is_Some (adjList g !! k) → is_Some (adj' !! k)) ∧
    (∀ x, x ∈ vis ↔ reachableFrom (adjList g) (sources g) x).
Proof.
  set (U := idsOf (sources g) (adjList g)).
  destruct (reachLoop_total U (S (size U)) (adjList g)
              (reverse (ascending (sources g)))
              (list_to_set (ascending (sources g)))) as [[adj' vis] Hrun].
  { intros a b. apply elem_of_idsOf_adj. }
  { rewrite list_to_set_ascending, length_reverse, size_ascending.
    assert (Hsub : sources g ⊆ U) by (intros x; apply elem_of_idsOf_src).
    rewrite size_difference by done.
    apply subseteq_size in Hsub. lia. }
  exists adj', vis. split; [done|].
  destruct (reachLoop_frame _ _ _ _ _ _ Hrun) as (Hset & Hdom & _).
  split_and!; try done.
  apply reachLoop_spec in Hrun as (HA & HB & HC).
  2:{ intros x. rewrite elem_of_reverse, list_to_set_ascending.
      apply elem_of_ascending. }
  rewrite list_to_set_ascending in *.
  intros x. split.
  - intros [Hx|(s & Hs & Hsx)]%HB.
    + by exists x.
    + exists s. split; [|done].
      by apply elem_of_reverse, elem_of_ascending in Hs.
  - intros (s & Hs & Hsx). apply HA in Hs.
    induction Hsx as [|a b c Hab _ IH]; [done|].
    apply IH. destruct (HC a Hs) as [[Hsrc Hns]|Hcl]; [|by apply Hcl].
    exfalso. apply Hns. by apply elem_of_reverse, elem_of_ascending.
Qed.

(** C7. [removeNonReachable] returns, and afterwards a value is active
    exactly when it was active before and its id is reachable from the
    source ids along forward edges; with an empty source set no value stays
    active and [getNodes] is empty. This holds for whichever order the hash
    map delivers its keys in. *)
Theorem removeNonReachable_prunes g order :
  order ≡ₚ (map_to_list (nodeMap g)).*1 →
  ∃ g', removeNonReachableIn order g = Done g' ∧
    (∀ v, active g' v
          ↔ ∃ i, nodeMap g !! v = Some (true, i) ∧
                 reachableFrom (adjList g) (sources g) i) ∧
    (sources g = ∅ → (∀ v, ¬ active g' v) ∧ (getNodes g').1 = []).
Proof.
  intros Horder.
  destruct (removeNonReachable_visited g)
    as (adj' & vis & Hrun & _ & _ & Hvis).
  unfold removeNonReachableIn. rewrite Hrun. cbn [bind fst snd].
  eexists. split; [done|].
  assert (Hact : ∀ v,
    active (foldl (pruneStep vis)
              (mkGraph (nodes g) (nodeMap g) adj' (revAdjList g) (sources g))
              order) v
    ↔ ∃ i, nodeMap g !! v = Some (true, i) ∧
           reachableFrom (adjList g) (sources g) i).
  { intros v. unfold active. rewrite prune_nodeMap. cbn [nodeMap].
    destruct (decide (v ∈ order)) as [Hin|Hin].
    - destruct (nodeMap g !! v) as [[[] i]|]; cbn.
      + destruct (decide (i ∈ vis)) as [Hi|Hi].
        * split; [intros _; exists i; split; [done|by apply Hvis] | eauto].
        * split; [by intros [? ?]|].
          intros (j & [= <-] & Hr). by apply Hvis in Hr.
      + split; [by intros [? ?] | by intros (? & ? & _)].
      + split; [by intros [? ?] | by intros (? & ? & _)].
    - assert (Hnone : nodeMap g !! v = None).
      { apply eq_None_not_Some. intros [x Hx]. apply Hin.
        rewrite Horder. apply list_elem_of_fmap. exists (v, x).
        split; [done|]. by apply elem_of_map_to_list. }
      rewrite Hnone. split; [by intros [? ?] | by intros (? & ? & _)]. }
  split; [done|].
  intros Hsrc.
  assert (Hnone : ∀ v, ¬ active (foldl (pruneStep vis)
              (mkGraph (nodes g) (nodeMap g) adj' (revAdjList g) (sources g))
              order) v).
  { intros v (i & _ & s & Hs & _)%Hact. rewrite Hsrc in Hs. set_solver. }
  split; [done|].
  apply elem_of_nil_inv. intros v [_ Hv]%elem_of_getNodes. by eapply Hnone.
Qed.

(** With the order stdpp gives the map, the prune returns as well. *)
Lemma removeNonReachable_returns g : ∃ g', removeNonReachable g = Done g'.
Proof.
  unfold removeNonReachable, removeNonReachableIn.
  destruct (removeNonReachable_visited g) as (adj' & vis & Hrun & _).
  rewrite Hrun. cbn [bind]. eauto.
Qed.

(** Pruning keeps every id, whatever the order of the keys. *)
Lemma removeNonReachableIn_hasId order g g' v i :
  removeNonReachableIn order g = Done g' → hasId g v i → hasId g' v i.
Proof.
  unfold removeNonReachableIn.
  destruct (reachLoop _ _ _ _) as [[adj' vis]| |]; cbn [bind]; try done.
  intros [= <-] [b Hv]. unfold hasId. rewrite prune_nodeMap. cbn [nodeMap].
  rewrite Hv. destruct (decide (v ∈ order)); [|eauto].
  destruct b; cbn; [|eauto]. destruct (decide (i ∈ vis)); eauto.
Qed.

End Pruning.

(** ** Relative position in a list *)

Lemma before_app_l {A} (x y : A) l1 l2 :
  before x y l1 → before x y (l1 ++ l2).
Proof.
  intros (k1 & k2 & k3 & ->). exists k1, k2, (k3 ++ l2).
  by simplify_list_eq.
Qed.

Lemma before_app_r {A} (x y : A) l1 l2 :
  before x y l2 → before x y (l1 ++ l2).
Proof.
  intros (k1 & k2 & k3 & ->). exists (l1 ++ k1), k2, k3.
  by simplify_list_eq.
Qed.

Lemma before_app_lr {A} (x y : A) l1 l2 :
  x ∈ l1 → y ∈ l2 → before x y (l1 ++ l2).
Proof.
  intros (k1 & k2 & ->)%list_elem_of_split (k3 & k4 & ->)%list_elem_of_split.
  exists k1, (k2 ++ k3), k4. by simplify_list_eq.
Qed.

Lemma before_reverse {A} (x y : A) l :
  before x y l → before y x (reverse l).
Proof.
  intros (k1 & k2 & k3 & ->). exists (reverse k3), (reverse k2), (reverse k1).
  rewrite !reverse_app, !reverse_cons, !reverse_app, !reverse_cons.
  by simplify_list_eq.
Qed.

Lemma before_Forall2 {A B} (R : A → B → Prop) (x y : A) l l' :
  before x y l → Forall2 R l l' →
  ∃ x' y', R x x' ∧ R y y' ∧ before x' y' l'.
Proof.
  intros (k1 & k2 & k3 & ->) HF.
  apply Forall2_app_inv_l in HF as (k1' & r1 & _ & HF & ->).
  apply Forall2_cons_inv_l in HF as (x' & r2 & Hx & HF & ->).
  apply Forall2_app_inv_l in HF as (k2' & r3 & _ & HF & ->).
  apply Forall2_cons_inv_l in HF as (y' & k3' & Hy & _ & ->).
  exists x', y'. split_and!; [done..|]. by exists k1', k2', k3'.
Qed.

Lemma before_elem_of {A} (x y : A) l : before x y l → x ∈ l ∧ y ∈ l.
Proof. intros (k1 & k2 & k3 & ->). set_solver. Qed.

(** ** Depth-first traversal *)

Section Dfs.
Context {T : Type} `{Countable T}.
Variable ns : list T.
Variable adj0 : gmap nat (gset nat).
Variable U : gset nat.
Hypothesis U_closed : ∀ a b, edge adj0 a b → b ∈ U.
Hypothesis U_range : ∀ x, x ∈ U → is_Some (ns !! x).

Local Abbreviation dfsPre := (dfsPre adj0 U).
Local Abbreviation dfsPost := (dfsPost ns adj0 U).
Local Abbreviation dfsSpec := (dfsSpec ns adj0 U).

Lemma size_unvisited_mono (V V' : gset nat) :
  V ⊆ V' → size (U ∖ V') ≤ size (U ∖ V).
Proof. intros HV. apply subseteq_size. set_solver. Qed.

Lemma size_unvisited_insert (V : gset nat) x :
  x ∈ U → x ∉ V → S (size (U ∖ ({[x]} ∪ V))) = size (U ∖ V).
Proof.
  intros HxU HxV.
  assert (Heq : U ∖ V = {[x]} ∪ U ∖ ({[x]} ∪ V)).
  { apply set_eq. intros y. destruct (decide (y = x)); set_solver. }
  rewrite Heq at 1.
  pose proof (size_union (C:=gset nat) {[x]} (U ∖ ({[x]} ∪ V))) as Hs.
  rewrite Hs by set_solver. by rewrite size_singleton.
Qed.

Lemma dfs_loop_spec fuel :
  dfsSpec fuel →
  ∀ dests st black,
    dfsPre black dests fuel st →
    ∃ st' ids vs,
      forEach (λ dest s, if decide (dest ∈ dVisited s) then Done s
                         else dfs fuel ns dest s) dests st = Done st' ∧
      dfsPost black dests st st' ids vs.
Proof.
  intros Hdfs dests.
  induction dests as [|d dests IH]; intros st black (Hext & HU & Hsz & Hgrey).
  { exists st, [], []. split; [done|].
    unfold dfsPost. rewrite app_nil_r.
    split_and!; try done; try set_solver.
    constructor. }
  cbn [forEach].
  destruct (decide (d ∈ dVisited st)) as [Hd|Hd].
  - destruct (IH st black) as (st' & ids & vs & Hrun & Hpost).
    { split_and!; [done| |done|]; intros; [apply HU|eapply Hgrey];
        set_solver. }
    exists st', ids, vs. cbn [bind]. split; [done|].
    destruct Hpost as (P1 & P2 & P3 & P4 & P5 & P6 & P7 & P8 & P9 & P10 & P11).
    split_and!; try done.
    + intros x Hx. destruct (P8 x Hx) as (r & Hr & Hrx).
      exists r. split; [set_solver|done].
    + intros r [->|Hr]%elem_of_cons; [|by apply P9].
      rewrite P3. set_solver.
  - destruct (Hdfs d st black) as (st1 & ids1 & vs1 & Hrun1 & Hpost1);
      [|done|].
    { split_and!; [done| |done|]; intros; [apply HU|eapply Hgrey];
        set_solver. }
    rewrite Hrun1. cbn [bind].
    destruct Hpost1
      as (Q1 & Q2 & Q3 & Q4 & Q5 & Q6 & Q7 & Q8 & Q9 & Q10 & Q11).
    destruct (IH st1 (black ∪ list_to_set ids1))
      as (st' & ids & vs & Hrun & Hpost).
    { split_and!; [done| | |].
      - intros; apply HU; set_solver.
      - eapply Nat.le_lt_trans; [|exact Hsz].
        apply size_unvisited_mono. rewrite Q3. set_solver.
      - intros g r Hg Hnb Hr. eapply Hgrey; [| |set_solver].
        + rewrite Q3 in Hg. set_solver.
        + set_solver. }
    exists st', (ids1 ++ ids), (vs1 ++ vs). split; [done|].
    destruct Hpost as (P1 & P2 & P3 & P4 & P5 & P6 & P7 & P8 & P9 & P10 & P11).
    split_and!.
    + done.
    + intros Hall. rewrite P2; [by apply Q2|].
      by rewrite Q2.
    + rewrite P3, Q3, list_to_set_app_L. set_solver.
    + by rewrite P4, Q4, app_assoc.
    + by apply Forall2_app.
    + apply NoDup_app. split_and!; [done| |done].
      intros x Hx1 Hx2. apply (P7 x Hx2). rewrite Q3. set_solver.
    + intros x [Hx|Hx]%elem_of_app; [by apply Q7|].
      intros Hin. apply (P7 x Hx). rewrite Q3. set_solver.
    + intros x [Hx|Hx]%elem_of_app.
      * destruct (Q8 x Hx) as (r & Hr & Hrx).
        exists r. split; [set_solver|done].
      * destruct (P8 x Hx) as (r & Hr & Hrx).
        exists r. split; [set_solver|done].
    + intros r [->|Hr]%elem_of_cons; [|by apply P9].
      rewrite P3. apply elem_of_union_r, Q9. set_solver.
    + intros x y [Hx|Hx]%elem_of_app Hxy; [|by eapply P10].
      rewrite P3. apply elem_of_union_r. by eapply Q10.
    + intros x y [Hx|Hx]%elem_of_app Hxy.
      * destruct (Q11 x y Hx Hxy) as [Hb|[Hb|Hb]]; [by left| |by right; right].
        right; left. by apply before_app_l.
      * destruct (P11 x y Hx Hxy) as [Hb|[Hb|Hb]]; [| |by right; right].
        -- apply elem_of_union in Hb as [Hb|Hb%elem_of_list_to_set];
             [by left|].
           right; left. by apply before_app_lr.
        -- right; left. by apply before_app_r.
Qed.

Lemma dfs_spec fuel : dfsSpec fuel.
Proof.
  induction fuel as [|fuel IH]; intros node st black (Hext & HU & Hsz & Hgrey)
    Hnode; [lia|].
  assert (HnodeU : node ∈ U) by (apply HU; set_solver).
  cbn [dfs].
  set (st1 := mkDfs (touch (dAdj st) node) ({[node]} ∪ dVisited st) (dRes st)).
  set (dests := ascending (setAt (touch (dAdj st) node) node)).
  assert (Hdests : ∀ y, y ∈ dests ↔ edge adj0 node y).
  { intros y. unfold dests, edge.
    by rewrite elem_of_ascending, setAt_touch, Hext. }
  destruct (dfs_loop_spec fuel IH dests st1 black)
    as (st2 & ids2 & vs2 & Hrun & Hpost).
  { subst st1. split_and!; cbn [dAdj dVisited].
    - intros k. by rewrite setAt_touch.
    - intros r Hr%Hdests. by eapply U_closed.
    - pose proof (size_unvisited_insert (dVisited st) node HnodeU Hnode). lia.
    - intros g r Hg Hnb Hr%Hdests.
      apply elem_of_union in Hg as [->%elem_of_singleton|Hg].
      + by apply rtc_once.
      + eapply rtc_r; [|done]. eapply Hgrey; [done..|set_solver]. }
  rewrite Hrun. cbn [bind].
  destruct (U_range node HnodeU) as [v Hv]. rewrite Hv.
  destruct Hpost as (P1 & P2 & P3 & P4 & P5 & P6 & P7 & P8 & P9 & P10 & P11).
  subst st1. cbn [dAdj dVisited dRes] in *.
  eexists _, (ids2 ++ [node]), (vs2 ++ [v]). split; [done|].
  split_and!; cbn [dAdj dVisited dRes].
  - done.
  - intros Hall. rewrite P2.
    + apply touch_present, Hall, HnodeU.
    + intros k Hk. apply lookup_touch_is_Some. left. by apply Hall.
  - rewrite P3, list_to_set_app_L. set_solver.
  - by rewrite P4, app_assoc.
  - apply Forall2_app; [done|]. by repeat constructor.
  - apply NoDup_app. split_and!; [done| |apply NoDup_singleton].
    intros x Hx Hx'%list_elem_of_singleton. subst x.
    apply (P7 node Hx). set_solver.
  - intros x [Hx| ->%list_elem_of_singleton]%elem_of_app; [|done].
    intros Hin. apply (P7 x Hx). set_solver.
  - intros x [Hx| ->%list_elem_of_singleton]%elem_of_app.
    + destruct (P8 x Hx) as (r & Hr%Hdests & Hrx).
      exists node. split; [set_solver|]. by eapply rtc_l.
    + exists node. split; [set_solver|done].
  - intros r Hr%list_elem_of_singleton. subst r. rewrite P3. set_solver.
  - intros x y [Hx| ->%list_elem_of_singleton]%elem_of_app Hxy.
    + by eapply P10.
    + by apply P9, Hdests.
  - intros x y [Hx| ->%list_elem_of_singleton]%elem_of_app Hxy.
    + destruct (P11 x y Hx Hxy) as [Hb|[Hb|Hb]]; [by left| |by right; right].
      right; left. by apply before_app_l.
    + assert (Hy : y ∈ dVisited st2) by (by apply P9, Hdests).
      rewrite P3 in Hy.
      apply elem_of_union in Hy as [Hy%elem_of_list_to_set|Hy].
      * right; left. apply before_app_lr; [done|set_solver].
      * apply elem_of_union in Hy as [->%elem_of_singleton|Hy].
        -- by right; right.
        -- destruct (decide (y ∈ black)) as [Hb|Hb]; [by left|].
           right; right. eapply Hgrey; [done..|set_solver].
Qed.

End Dfs.

(** ** Topological sort *)

Lemma elem_of_idsOf src adj x :
  x ∈ idsOf src adj ↔ x ∈ src ∨ ∃ k, x ∈ setAt adj k.
Proof.
  split.
  - unfold idsOf. intros [Hx|Hx]%elem_of_union; [by left|right].
    apply elem_of_union_list in Hx as (s & Hs & Hx).
    apply list_elem_of_fmap in Hs as ([k s'] & -> & Hks).
    apply elem_of_map_to_list in Hks. exists k. unfold setAt.
    by rewrite Hks.
  - intros [Hx|[k Hx]];
      [by apply elem_of_idsOf_src | by eapply elem_of_idsOf_adj].
Qed.

Lemma acyclic_of_increasing adj src :
  map_Forall (λ k s, set_Forall (λ b, k < b) s) adj → acyclicFrom adj src.
Proof.
  intros Hinc x _ Hcyc.
  assert (Hlt : ∀ a b, tc (edge adj) a b → a < b).
  { induction 1 as [a b Hab|a b c Hab _ IH].
    - unfold edge, setAt in Hab.
      destruct (adj !! a) as [s|] eqn:Ha; [|set_solver].
      exact (Hinc a s Ha b Hab).
    - unfold edge, setAt in Hab.
      destruct (adj !! a) as [s|] eqn:Ha; [|set_solver].
      pose proof (Hinc a s Ha b Hab) as Hlt. cbn beta in Hlt. lia. }
  apply Hlt in Hcyc. lia.
Qed.

Section TopologicalSort.
Context {T : Type} `{Countable T}.
Implicit Types (g : Graph T) (v w : T) (i j k : nat).

(** On a well-formed graph the sort returns, leaves the state as it is, and
    lists the values of the ids reachable from the sources, each once, in
    post-order (reversed unless [reverseOrder]): a successor comes earlier in
    the post-order than its predecessor unless it lies on a cycle with it. *)
Lemma topologicalSort_spec g reverseOrder :
  wf g →
  ∃ ids vs,
    topologicalSort reverseOrder g
    = Done (if reverseOrder then vs else reverse vs, g) ∧
    Forall2 (λ i v, nodes g !! i = Some v) ids vs ∧
    NoDup ids ∧
    (∀ x, x ∈ ids ↔ reachableFrom (adjList g) (sources g) x) ∧
    (∀ x y, x ∈ ids → edge (adjList g) x y →
            before y x ids ∨ rtc (edge (adjList g)) y x).
Proof.
  intros Hwf. unfold topologicalSort.
  set (U := idsOf (sources g) (adjList g)).
  assert (Hrange : ∀ x, x ∈ U → x < length (nodes g)).
  { intros x [Hx|[k Hx]]%elem_of_idsOf.
    - by apply (wf_src g Hwf).
    - by apply (wf_bound g Hwf) in Hx as [_ ?]. }
  destruct (dfs_loop_spec (nodes g) (adjList g) U) with
    (fuel := S (size U)) (dests := ascending (sources g))
    (st := mkDfs (T := T) (adjList g) ∅ []) (black := (∅ : gset nat))
    as (st' & ids & vs & Hrun & Hpost).
  { intros a b Hab. by eapply elem_of_idsOf_adj. }
  { intros x Hx. by apply lookup_lt_is_Some, Hrange. }
  { apply dfs_spec.
    - intros a b Hab. by eapply elem_of_idsOf_adj.
    - intros x Hx. by apply lookup_lt_is_Some, Hrange. }
  { split_and!; cbn [dAdj dVisited].
    - done.
    - intros r Hr%elem_of_ascending. by apply elem_of_idsOf_src.
    - assert (U ∖ ∅ = U) as -> by set_solver. lia.
    - set_solver. }
  rewrite Hrun. cbn [bind].
  destruct Hpost as (P1 & P2 & P3 & P4 & P5 & P6 & P7 & P8 & P9 & P10 & P11).
  cbn [dAdj dVisited dRes] in *.
  assert (Hvis : ∀ x, x ∈ dVisited st' ↔ x ∈ ids).
  { intros x. rewrite P3. set_solver. }
  exists ids, vs. split_and!.
  - rewrite P4, P2; [by destruct g|].
    intros k Hk. by apply (wf_adj_dom g Hwf), Hrange.
  - done.
  - done.
  - intros x. split.
    + intros (r & Hr%elem_of_ascending & Hrx)%P8. by exists r.
    + intros (s & Hs & Hsx).
      assert (Hs' : s ∈ ids) by (by apply Hvis, P9, elem_of_ascending).
      clear Hs. induction Hsx as [|a b c Hab _ IH]; [done|].
      apply IH, Hvis. by eapply P10.
  - intros x y Hx Hxy.
    destruct (P11 x y Hx Hxy) as [Hb|Hb]; [set_solver|done].
Qed.

(** C2. Topological order on a DAG: when no cycle is reachable from the
    sources, for every edge [a → b] whose tail is reachable from a source
    (its head then is as well), [a] comes before [b] in
    [topologicalSort(false)] and after [b] in [topologicalSort(true)]. *)
Theorem topological_order_on_dag g a b ia ib :
  constructed g →
  acyclicFrom (adjList g) (sources g) →
  hasId g a ia → hasId g b ib →
  edge (adjList g) ia ib →
  reachableFrom (adjList g) (sources g) ia →
  ∃ l l',
    topologicalSort false g = Done (l, g) ∧ before a b l ∧
    topologicalSort true g = Done (l', g) ∧ before b a l'.
Proof.
  intros Hwf%constructed_wf Hacyc Ha Hb Hab Hreach.
  destruct (topologicalSort_spec g false Hwf)
    as (ids & vs & Hrun & HF & _ & Hcov & Hord).
  destruct (topologicalSort_spec g true Hwf)
    as (ids' & vs' & Hrun' & _).
  assert (vs' = vs) as ->.
  { unfold topologicalSort in Hrun, Hrun'.
    destruct (forEach _ _ _) as [st| |]; cbn in Hrun, Hrun'; try done.
    injection Hrun as Hr _. injection Hrun' as Hr' _.
    rewrite Hr' in Hr. by apply (inj reverse) in Hr. }
  assert (Hbefore : before b a vs).
  { destruct (Hord ia ib) as [Hbf|Hcyc]; [by apply Hcov|done| |].
    - destruct (before_Forall2 _ _ _ _ _ Hbf HF) as (b' & a' & Hb' & Ha' & ?).
      apply (wf_ids g Hwf) in Ha, Hb. congruence.
    - exfalso. apply (Hacyc ia Hreach).
      eapply tc_rtc_r; [by apply tc_once|done]. }
  exists (reverse vs), vs. split_and!; try done.
  by apply before_reverse.
Qed.

(** The sort emits the value of every id reachable from the sources, active
    or not, exactly once. *)
Lemma topologicalSort_covers g reverseOrder :
  constructed g →
  ∃ l, topologicalSort reverseOrder g = Done (l, g) ∧ NoDup l ∧
       ∀ v, v ∈ l ↔ ∃ i, hasId g v i ∧
                         reachableFrom (adjList g) (sources g) i.
Proof.
  intros Hwf%constructed_wf.
  destruct (topologicalSort_spec g reverseOrder Hwf)
    as (ids & vs & Hrun & HF & Hnd & Hcov & _).
  assert (Hvs : ∀ v, v ∈ vs ↔ ∃ i, hasId g v i ∧ i ∈ ids).
  { intros v. setoid_rewrite (wf_ids g Hwf). split.
    - intros (k & Hk)%list_elem_of_lookup.
      destruct (Forall2_lookup_r _ _ _ _ _ HF Hk) as (i & Hi & Hiv).
      exists i. split; [done|]. by eapply list_elem_of_lookup_2.
    - intros (i & Hiv & (k & Hk)%list_elem_of_lookup).
      destruct (Forall2_lookup_l _ _ _ _ _ HF Hk) as (v' & Hv' & Hiv').
      assert (v' = v) as -> by congruence.
      by eapply list_elem_of_lookup_2. }
  assert (Hndv : NoDup vs).
  { apply NoDup_alt. intros k1 k2 v Hk1 Hk2.
    destruct (Forall2_lookup_r _ _ _ _ _ HF Hk1) as (i1 & Hi1 & Hv1).
    destruct (Forall2_lookup_r _ _ _ _ _ HF Hk2) as (i2 & Hi2 & Hv2).
    assert (i1 = i2) as ->.
    { eapply NoDup_lookup; [apply (wf_nodup g Hwf)|done..]. }
    by eapply NoDup_lookup. }
  eexists. split; [done|].
  destruct reverseOrder.
  - split; [done|]. intros v. rewrite Hvs. by setoid_rewrite Hcov.
  - split; [by rewrite reverse_Permutation|]. intros v.
    rewrite elem_of_reverse, Hvs. by setoid_rewrite Hcov.
Qed.

End TopologicalSort.

(** ** Concrete graphs *)

Example chain_nodes : (getNodes chain).1 = [0; 1; 2; 3; 4; 5; 6].
Proof. vm_compute. reflexivity. Qed.

Example extended_nodes : (getNodes extended).1 = [0; 1; 2; 3; 4; 5; 6].
Proof. vm_compute. reflexivity. Qed.

(** C1. A source that has been removed is still returned by
    [topologicalSort]: the traversal starts from every id in [sources] and
    never reads the active flag, while [removeNode] leaves the id in
    [sources]. Here the graph holds the single value [0], inserted as a
    source and then removed: [getNodes] is empty, yet both orders of the
    sort return [0]. *)
Theorem removed_source_is_still_sorted :
  constructed removedSource ∧
  ¬ active removedSource 0 ∧
  (getNodes removedSource).1 = [] ∧
  topologicalSort false removedSource = Done ([0], removedSource) ∧
  topologicalSort true removedSource = Done ([0], removedSource).
Proof.
  split_and!.
  - apply c_removeNode, c_addNode, c_empty.
  - intros [i Hi]. vm_compute in Hi. discriminate.
  - vm_compute. reflexivity.
  - vm_compute. reflexivity.
  - vm_compute. reflexivity.
Qed.

(** The order of the sort on [oneEdge], whose single edge is [0 -> 1]. *)
Lemma topological_order_on_dag_witness :
  ∃ l l',
    topologicalSort false oneEdge = Done (l, oneEdge) ∧ before 0 1 l ∧
    topologicalSort true oneEdge = Done (l', oneEdge) ∧ before 1 0 l'.
Proof.
  apply (topological_order_on_dag oneEdge 0 1 0 1).
  - apply c_addEdge, c_addNode, c_empty.
  - apply acyclic_of_increasing. apply (bool_decide_unpack _). vm_compute.
    exact I.
  - exists true. vm_compute. reflexivity.
  - exists true. vm_compute. reflexivity.
  - unfold edge. apply (bool_decide_unpack _). vm_compute. exact I.
  - exists 0. split; [|apply rtc_refl].
    apply (bool_decide_unpack _). vm_compute. exact I.
Defined.

(** Symmetry of the edge [0 -> 1] of [oneEdge]. *)
Lemma adjacency_symmetry_witness :
  1 ∈ setAt (adjList oneEdge) 0 ↔ 0 ∈ setAt (revAdjList oneEdge) 1.
Proof.
  apply (adjacency_symmetry oneEdge 0 1).
  apply c_addEdge, c_addNode, c_empty.
Defined.

(** Id stability from the state [oneEdge]. *)
Lemma id_stability_witness :
  (∀ cs v i, hasId oneEdge v i → hasId (calls cs oneEdge) v i) ∧
  (∀ v s, ¬ known oneEdge v →
          hasId (addNode v s oneEdge) v (length (nodes oneEdge))) ∧
  (∀ i, (∃ v, hasId oneEdge v i) ↔ i < length (nodes oneEdge)) ∧
  (∀ v w i, hasId oneEdge v i → hasId oneEdge w i → v = w).
Proof.
  apply (id_stability oneEdge).
  apply c_addEdge, c_addNode, c_empty.
Defined.

(** Removing the tail [0] of the edge of [oneEdge]. *)
Lemma removal_isolates_witness :
  (isConnected 0 1 (removeNode 0 oneEdge)).1 = false ∧
  (isConnected 1 0 (removeNode 0 oneEdge)).1 = false ∧
  0 ∉ (getNodes (removeNode 0 oneEdge)).1.
Proof.
  apply (removal_isolates oneEdge 0 1).
  - apply c_addEdge, c_addNode, c_empty.
  - exists (true, 0). vm_compute. reflexivity.
Defined.

(** Pruning [severed], the keys being met in descending order. *)
Lemma removeNonReachable_prunes_witness :
  ∃ g', removeNonReachableIn [6; 5; 4; 3; 2; 1; 0] severed = Done g' ∧
    (∀ v, active g' v
          ↔ ∃ i, nodeMap severed !! v = Some (true, i) ∧
                 reachableFrom (adjList severed) (sources severed) i) ∧
    (sources severed = ∅ → (∀ v, ¬ active g' v) ∧ (getNodes g').1 = []).
Proof.
  apply (removeNonReachable_prunes severed [6; 5; 4; 3; 2; 1; 0]).
  apply (bool_decide_unpack _). vm_compute. exact I.
Defined.

(** The value [9] is unknown to [oneEdge]. *)
Lemma unknown_values_degrade_witness :
  removeNode 9 oneEdge = oneEdge ∧
  ∀ x, isConnected 9 x oneEdge = (false, oneEdge) ∧
       isConnected x 9 oneEdge = (false, oneEdge).
Proof.
  apply (unknown_values_degrade oneEdge 9).
  intros [x Hx]. vm_compute in Hx. discriminate.
Defined.

(** The value [1] entered [oneEdge] through [addEdge], as a non-source. *)
Lemma source_flag_first_insertion_only_witness :
  sources (addNode 1 true oneEdge) = sources oneEdge ∧
  ∀ cs, 1 ∈ sources (calls cs oneEdge) ↔ 1 ∈ sources oneEdge.
Proof.
  apply (source_flag_first_insertion_only oneEdge 1 1).
  - apply c_addEdge, c_addNode, c_empty.
  - exists true. vm_compute. reflexivity.
Defined.

(** Adding the edge [0 -> 1] again after its head was removed. *)
Lemma addEdge_reactivates_witness :
  let g' := addEdge 0 1 removedHead in
  ∃ si di, hasId g' 0 si ∧ hasId g' 1 di ∧
    nodeMap g' !! 1 = Some (true, 1) ∧
    1 ∈ (getNodes g').1 ∧
    (∀ y, y ∈ setAt (adjList g') 1 ↔ 1 = 0 ∧ y = di) ∧
    (∀ x, x ∈ setAt (revAdjList g') 1 ↔ 1 = 1 ∧ x = si).
Proof.
  apply (addEdge_reactivates removedHead 0 1 1 1).
  - apply c_removeNode, c_addEdge, c_addNode, c_empty.
  - right. reflexivity.
  - vm_compute. reflexivity.
Defined.

(** The value [1] of [oneEdge], the head of [0 -> 1], removed and brought
    back once by [addNode] and once by [addEdge]. *)
Lemma reinsertion_restores_no_removed_edge_witness :
  (∀ s,
     nodeMap (addNode 1 s (removeNode 1 oneEdge)) !! 1 = Some (true, 1) ∧
     setAt (adjList (addNode 1 s (removeNode 1 oneEdge))) 1 = ∅ ∧
     setAt (revAdjList (addNode 1 s (removeNode 1 oneEdge))) 1 = ∅ ∧
     ∀ x, (isConnected 1 x (addNode 1 s (removeNode 1 oneEdge))).1 = false ∧
          (isConnected x 1 (addNode 1 s (removeNode 1 oneEdge))).1 = false) ∧
  (∀ src dest, 1 = src ∨ 1 = dest →
     ∃ si di,
       hasId (addEdge src dest (removeNode 1 oneEdge)) src si ∧
       hasId (addEdge src dest (removeNode 1 oneEdge)) dest di ∧
       nodeMap (addEdge src dest (removeNode 1 oneEdge)) !! 1
       = Some (true, 1) ∧
       (∀ y, y ∈ setAt (adjList (addEdge src dest (removeNode 1 oneEdge))) 1
             ↔ 1 = src ∧ y = di) ∧
       (∀ x, x ∈ setAt (revAdjList (addEdge src dest (removeNode 1 oneEdge))) 1
             ↔ 1 = dest ∧ x = si)).
Proof.
  apply (reinsertion_restores_no_removed_edge oneEdge 1 1).
  - apply c_addEdge, c_addNode, c_empty.
  - exists true. vm_compute. reflexivity.
Defined.

(** Re-insertion through [addEdge] does not leave the sets empty: in
    [oneEdge] the value [1] has the edge [0 -> 1]; after [removeNode(1)] and
    [addEdge(1, 0)] it is active under its id [1] and its forward set is
    [{0}]. *)
Lemma reinsertion_by_addEdge_has_an_edge :
  (isConnected 0 1 oneEdge).1 = true ∧
  nodeMap (removeNode 1 oneEdge) !! 1 = Some (false, 1) ∧
  reinsertedByEdge = addEdge 1 0 (removeNode 1 oneEdge) ∧
  nodeMap reinsertedByEdge !! 1 = Some (true, 1) ∧
  ascending (setAt (adjList reinsertedByEdge) 1) = [0] ∧
  setAt (adjList reinsertedByEdge) 1 ≠ ∅.
Proof.
  split_and!; try (vm_compute; reflexivity).
  intros Hempty.
  pose proof (f_equal ascending Hempty) as Hasc.
  vm_compute in Hasc. discriminate.
Qed.

(** The scenario of test/Misc/Graph.C up to [G.print()]: after [node4] is
    removed and the graph pruned, nodes 0 to 3 remain with the edges
    [0 -> 1], [0 -> 3], [1 -> 2], [2 -> 3], and the sort lists them in that
    order. *)
Example scenario_pruned :
  ∃ g, removeNonReachable severed = Done g ∧
       (getNodes g).1 = [0; 1; 2; 3] ∧
       map (λ i, ascending (setAt (adjList g) i)) (seq 0 7)
       = [[1; 3]; [2]; [3]; []; []; []; []] ∧
       topologicalSort false g = Done ([0; 1; 2; 3], g).
Proof.
  eexists. split; [vm_compute; reflexivity|].
  split_and!; vm_compute; reflexivity.
Qed.

(** ** Further properties of the node and edge lifecycle *)

Lemma insertAt_idem m k x : insertAt (insertAt m k x) k x = insertAt m k x.
Proof.
  unfold insertAt at 1. rewrite setAt_insertAt, decide_True by done.
  unfold insertAt. rewrite insert_insert_eq. f_equal. set_solver.
Qed.

Lemma ascending_empty : ascending ∅ = [].
Proof. unfold ascending. by rewrite elements_empty. Qed.

Lemma eraseAll_lookup id keys m k :
  eraseAll id keys m !! k
  = if decide (k ∈ keys) then Some (setAt m k ∖ {[id]}) else m !! k.
Proof.
  unfold eraseAll. revert m.
  induction keys as [|a keys IH]; intros m; cbn [foldl].
  - rewrite decide_False; [done|apply not_elem_of_nil].
  - rewrite IH, setAt_eraseAt. unfold eraseAt. rewrite lookup_insert.
    destruct (decide (a = k)) as [->|Hne].
    + rewrite (decide_True (P := k ∈ k :: keys)) by set_solver.
      destruct (decide (k ∈ keys)); [f_equal; set_solver|done].
    + destruct (decide (k ∈ keys)).
      * by rewrite decide_True by set_solver.
      * by rewrite decide_False by set_solver.
Qed.

Section MoreLifecycle.
Context {T : Type} `{Countable T}.
Implicit Types (g : Graph T) (v w : T) (i j k : nat).

Lemma addNode_active_id g v s i :
  nodeMap g !! v = Some (true, i) → addNode v s g = g.
Proof. intros Hv. unfold addNode. by rewrite Hv. Qed.

Lemma addNode_false_sources g v : sources (addNode v false g) = sources g.
Proof.
  unfold addNode. by destruct (nodeMap g !! v) as [[[] i]|].
Qed.

(** X1. Adding a value a second time, with whatever flag, changes
    nothing. *)
Theorem addNode_twice g v s s' :
  addNode v s' (addNode v s g) = addNode v s g.
Proof.
  destruct (addNode_is_Some g v s) as [i Hi]. by eapply addNode_active_id.
Qed.

(** X2. Adding the same edge a second time changes nothing. *)
Theorem addEdge_twice g a b :
  addEdge a b (addEdge a b g) = addEdge a b g.
Proof.
  destruct (addEdge_ids g a b) as (si & di & Ha & Hb).
  pose proof (addEdge_unfold g a b si di Ha Hb) as Hg1. cbn zeta in Hg1.
  set (g2 := addNode b false (addNode a false g)) in *.
  assert (Ha1 : nodeMap (addEdge a b g) !! a = Some (true, si))
    by (by rewrite addEdge_nodeMap).
  assert (Hb1 : nodeMap (addEdge a b g) !! b = Some (true, di))
    by (by rewrite addEdge_nodeMap).
  assert (Hn : addNode b false (addNode a false (addEdge a b g))
               = addEdge a b g).
  { rewrite (addNode_active_id _ a false si Ha1).
    by rewrite (addNode_active_id _ b false di Hb1). }
  rewrite (addEdge_unfold (addEdge a b g) a b si di); rewrite Hn; [|done..].
  cbn zeta. rewrite Hg1. cbn [nodes nodeMap adjList revAdjList sources].
  by rewrite !insertAt_idem.
Qed.

(** X3. Removing a value a second time changes nothing. *)
Theorem removeNode_twice g v :
  removeNode v (removeNode v g) = removeNode v g.
Proof.
  destruct (nodeMap g !! v) as [[b i]|] eqn:Hv;
    [|by rewrite !(removeNode_unknown g v Hv)].
  assert (Hv1 : nodeMap (removeNode v g) !! v = Some (false, i)).
  { rewrite (removeNode_nodeMap g v b i Hv). by rewrite lookup_insert_eq. }
  assert (Ha : setAt (adjList (removeNode v g)) i = ∅).
  { rewrite (removeNode_adj g v b i i Hv). by rewrite decide_True. }
  assert (Hr : setAt (revAdjList (removeNode v g)) i = ∅).
  { rewrite (removeNode_rev g v b i i Hv). by rewrite decide_True. }
  assert (Hal : adjList (removeNode v g) !! i = Some ∅).
  { unfold removeNode. rewrite Hv. cbn [adjList].
    rewrite eraseAll_lookup, setAt_insert.
    rewrite (decide_True (P := i = i)) by done.
    rewrite lookup_insert_eq.
    destruct (decide (i ∈ _)); [f_equal; set_solver|done]. }
  assert (Hrl : revAdjList (removeNode v g) !! i = Some ∅).
  { unfold removeNode. rewrite Hv. cbn [revAdjList].
    by rewrite lookup_insert_eq. }
  unfold removeNode at 1. rewrite Hv1.
  rewrite !setAt_touch, Ha, ascending_empty.
  change (eraseAll i [] (revAdjList (removeNode v g)))
    with (revAdjList (removeNode v g)).
  rewrite ?setAt_touch, Hr, ascending_empty.
  change (eraseAll i [] ?m) with m.
  rewrite !touch_present by eauto.
  rewrite !insert_id by done.
  by destruct (removeNode v g).
Qed.

(** X4. [addEdge] makes both endpoints active, connects them, and never
    adds a source. *)
Theorem addEdge_connects g a b :
  (isConnected a b (addEdge a b g)).1 = true ∧
  active (addEdge a b g) a ∧ active (addEdge a b g) b ∧
  sources (addEdge a b g) = sources g.
Proof.
  destruct (addEdge_ids g a b) as (si & di & Ha & Hb).
  split_and!.
  - apply isConnected_true. exists si, di. unfold hasId.
    rewrite addEdge_nodeMap. split_and!; [by exists true..|].
    rewrite (addEdge_unfold g a b si di Ha Hb). cbn [adjList].
    rewrite setAt_insertAt, decide_True by done. set_solver.
  - exists si. by rewrite addEdge_nodeMap.
  - exists di. by rewrite addEdge_nodeMap.
  - by rewrite addEdge_sources, !addNode_false_sources.
Qed.

Lemma wf_edge_known g i j :
  wf g → j ∈ setAt (adjList g) i → ∃ x y, hasId g x i ∧ hasId g y j.
Proof.
  intros Hwf [Hi Hj]%(wf_bound g Hwf).
  apply lookup_lt_is_Some in Hi as [x Hx], Hj as [y Hy].
  exists x, y. split; by apply (wf_ids g Hwf).
Qed.

Lemma wf_hasId_inj g v w i : wf g → hasId g v i → hasId g w i → v = w.
Proof. intros Hwf [b Hv] [b' Hw]. by eapply wf_id_inj. Qed.

(** X5. [addEdge a b] adds the edge [a -> b] and no other: any two values
    are connected afterwards exactly when they were before or are [a] and
    [b]. *)
Theorem addEdge_adds_one_edge g a b x y :
  constructed g →
  (isConnected x y (addEdge a b g)).1 = true
  ↔ (x = a ∧ y = b) ∨ (isConnected x y g).1 = true.
Proof.
  intros Hwf%constructed_wf.
  destruct (addEdge_ids g a b) as (si & di & Ha & Hb).
  assert (Hwf1 : wf (addNode a false g)) by (by apply wf_addNode).
  assert (Hwf2 : wf (addNode b false (addNode a false g)))
    by (by apply wf_addNode).
  assert (Hadj : ∀ k, setAt (adjList (addNode b false (addNode a false g))) k
                      = setAt (adjList g) k).
  { intros k. destruct (addNode_setAt (addNode a false g) b false k Hwf1)
      as [-> _]. by destruct (addNode_setAt g a false k Hwf) as [-> _]. }
  assert (Hup : ∀ w k, hasId g w k →
                       hasId (addNode b false (addNode a false g)) w k).
  { intros w k Hw. by do 2 apply addNode_hasId. }
  rewrite !isConnected_true. unfold hasId at 1 2. rewrite addEdge_nodeMap.
  rewrite (addEdge_unfold g a b si di Ha Hb). cbn [adjList].
  set (g2 := addNode b false (addNode a false g)) in *.
  split.
  - intros (i & j & Hx & Hy & Hij). rewrite setAt_insertAt in Hij.
    assert (Hold : j ∈ setAt (adjList g) i →
                   ∃ i' j', hasId g x i' ∧ hasId g y j' ∧
                            j' ∈ setAt (adjList g) i').
    { intros Hin. destruct (wf_edge_known g i j Hwf Hin) as (x' & y' & Hx' & Hy').
      assert (x' = x) as -> by (eapply (wf_hasId_inj g2); eauto).
      assert (y' = y) as -> by (eapply (wf_hasId_inj g2); eauto).
      by exists i, j. }
    destruct (decide (si = i)) as [<-|Hne]; [|right; apply Hold; by rewrite <- Hadj].
    apply elem_of_union in Hij as [->%elem_of_singleton|Hij];
      [|right; apply Hold; by rewrite <- Hadj].
    left. split; eapply (wf_hasId_inj g2); eauto; by exists true.
  - intros [[-> ->]|(i & j & Hx & Hy & Hij)].
    + exists si, di. split_and!; [by exists true..|].
      rewrite setAt_insertAt, decide_True by done. set_solver.
    + exists i, j. split_and!; [by apply Hup..|].
      rewrite setAt_insertAt. case_decide; subst; rewrite ?Hadj; set_solver.
Qed.

End MoreLifecycle.

Lemma flat_map_ext_elem {A B} (f f' : A → list B) (l : list A) :
  (∀ x, x ∈ l → f x = f' x) → flat_map f l = flat_map f' l.
Proof.
  induction l as [|a l IH]; intros Hext; cbn [flat_map]; [done|].
  rewrite Hext by set_solver. f_equal. apply IH. intros; apply Hext.
  set_solver.
Qed.

Lemma flat_map_fst_zip {A B C} (f : A → list C) (l : list A) (k : list B) :
  length l = length k →
  flat_map (λ p, f p.1) (zip l k) = flat_map f l.
Proof.
  revert k. induction l as [|a l IH]; intros [|b k] Hlen; cbn in *;
    try done. f_equal. apply IH. lia.
Qed.

Section MoreQueries.
Context {T : Type} `{Countable T}.
Implicit Types (g : Graph T) (v w : T) (i j k : nat).

Lemma active_hasId g v i : active g v → hasId g v i →
  nodeMap g !! v = Some (true, i).
Proof. intros [j Hj] [b Hb]. congruence. Qed.

Lemma removeNode_active g v w :
  active (removeNode v g) w ↔ active g w ∧ w ≠ v.
Proof.
  unfold active. destruct (decide (v = w)) as [<-|Hne].
  - destruct (nodeMap g !! v) as [[b i]|] eqn:Hv.
    + rewrite (removeNode_nodeMap g v b i Hv), lookup_insert_eq.
      split; [by intros [? ?] | by intros [_ ?]].
    + rewrite removeNode_unknown, Hv by done.
      split; [by intros [? ?] | by intros [_ ?]].
  - rewrite removeNode_nodeMap_ne by done.
    split; [intros ?; split; [done|congruence] | by intros [? _]].
Qed.

(** X6. [removeNode v] touches nothing but [v]: two other values are
    connected afterwards exactly when they were before, [getNodes] loses
    [v] and keeps the rest in order, and the node vector and the source set
    stay as they are. *)
Theorem removeNode_frame g v :
  constructed g →
  (∀ x y, x ≠ v → y ≠ v →
     (isConnected x y (removeNode v g)).1 = (isConnected x y g).1) ∧
  (getNodes (removeNode v g)).1 = filter (λ w, w ≠ v) (getNodes g).1 ∧
  nodes (removeNode v g) = nodes g ∧
  sources (removeNode v g) = sources g.
Proof.
  intros Hwf%constructed_wf. split_and!.
  - intros x y Hx Hy.
    destruct (nodeMap g !! v) as [[b iv]|] eqn:Hv;
      [|by rewrite removeNode_unknown].
    apply eq_true_iff_eq. rewrite !isConnected_true.
    unfold hasId. rewrite !removeNode_nodeMap_ne by done.
    split; intros (i & j & Hi & Hj & Hij); exists i, j;
      (split_and!; [done..|]).
    + by apply (removeNode_edge g v b iv i j Hwf Hv) in Hij as [? _].
    + apply (removeNode_edge g v b iv i j Hwf Hv). split_and!; [done| |].
      * intros ->. apply Hx. symmetry.
        eapply (wf_hasId_inj g); [done|by exists b|done].
      * intros ->. apply Hy. symmetry.
        eapply (wf_hasId_inj g); [done|by exists b|done].
  - rewrite !getNodes_filter, removeNode_nodes, list_filter_filter.
    apply list_filter_iff. intros w.
    rewrite !infoAt_active, removeNode_active. tauto.
  - apply removeNode_nodes.
  - apply removeNode_sources.
Qed.

(** X7. A value that is not active, removed or never inserted, has no
    edge: in every state built by the public operations [isConnected]
    answers false for it in both directions. *)
Theorem inactive_is_isolated g v x :
  constructed g → ¬ active g v →
  (isConnected v x g).1 = false ∧ (isConnected x v g).1 = false.
Proof.
  intros Hwf%constructed_wf Hv.
  assert (Hiso : ∀ i, hasId g v i →
            setAt (adjList g) i = ∅ ∧ setAt (revAdjList g) i = ∅).
  { intros i [[] Hi]; [exfalso; apply Hv; by exists i|].
    by apply (wf_inactive g Hwf v). }
  split; apply not_true_is_false.
  - intros (i & j & Hi & _ & Hij)%isConnected_true.
    destruct (Hiso i Hi) as [Ha _]. set_solver.
  - intros (j & i & _ & Hi & Hij)%isConnected_true.
    destruct (Hiso i Hi) as [_ Hr]. apply (wf_sym g Hwf) in Hij. set_solver.
Qed.

(** X8. [getNodes] returns the active values and only those, each once, as
    a subsequence of the node vector. *)
Theorem getNodes_exact g :
  constructed g →
  NoDup (getNodes g).1 ∧
  (getNodes g).1 `sublist_of` nodes g ∧
  ∀ v, v ∈ (getNodes g).1 ↔ active g v.
Proof.
  intros Hwf%constructed_wf. rewrite getNodes_filter. split_and!.
  - apply NoDup_filter, Hwf.
  - apply sublist_filter.
  - intros v. rewrite <- getNodes_filter, elem_of_getNodes.
    split; [by intros [_ ?]|]. intros Hv. split; [|done].
    destruct Hv as [i Hi].
    eapply list_elem_of_lookup_2, (wf_ids g Hwf). by exists true.
Qed.

(** X9. The id of a value is its index in the node vector, which holds no
    value twice; every id stored in an adjacency set or in the source set
    is a valid index. *)
Theorem ids_index_the_node_store g :
  constructed g →
  NoDup (nodes g) ∧
  (∀ v i, hasId g v i ↔ nodes g !! i = Some v) ∧
  (∀ i j, j ∈ setAt (adjList g) i →
          i < length (nodes g) ∧ j < length (nodes g)) ∧
  (∀ j i, i ∈ setAt (revAdjList g) j →
          i < length (nodes g) ∧ j < length (nodes g)) ∧
  (∀ s, s ∈ sources g → s < length (nodes g)).
Proof.
  intros Hwf%constructed_wf. split_and!; try apply Hwf.
  intros j i. by apply wf_rev_bound.
Qed.

(** X11. The node vector only grows at its end: whatever calls follow, the
    old vector is a prefix of the new one, and pruning leaves it as it
    is. *)
Theorem node_store_append_only g cs :
  nodes g `prefix_of` nodes (calls cs g) ∧
  ∀ order g', removeNonReachableIn order g = Done g' → nodes g' = nodes g.
Proof.
  split.
  - unfold calls. revert g.
    induction cs as [|c cs IH]; intros g; cbn [foldl]; [done|].
    etrans; [|apply IH].
    assert (Hadd : ∀ g v s, nodes g `prefix_of` nodes (addNode v s g)).
    { intros g0 v s. unfold addNode.
      destruct (nodeMap g0 !! v) as [[[] i]|]; cbn [nodes]; try done.
      by apply prefix_app_r. }
    destruct c as [v s|a b|v]; cbn [call].
    + apply Hadd.
    + rewrite addEdge_nodes. etrans; apply Hadd.
    + by rewrite removeNode_nodes.
  - intros order g'. unfold removeNonReachableIn.
    destruct (reachLoop _ _ _ _) as [[adj' vis]| |]; cbn [bind]; try done.
    intros [= <-]. by rewrite prune_nodes.
Qed.

End MoreQueries.

(** ** Diagnostic output *)

Section PrintProperties.
Context {T : Type} `{Countable T}.
Variable toString : T → string.
Implicit Types (g : Graph T) (v w : T) (i j k : nat).

Lemma printNode_fold src (m : gmap T (bool * nat)) (l : list T) out :
  (foldl (printNode toString src) (out, m) l).1
  = out ++ map (λ v, nodeLine toString src v (infoAt m v))
             (filter (λ v, (infoAt m v).1 = true) l) ∧
  (∀ w, infoAt (foldl (printNode toString src) (out, m) l).2 w = infoAt m w) ∧
  ((∀ v, v ∈ l → is_Some (m !! v)) →
   (foldl (printNode toString src) (out, m) l).2 = m).
Proof.
  revert m out. induction l as [|a l IH]; intros m out; cbn [foldl].
  - split_and!; [by rewrite app_nil_r | done | done].
  - unfold printNode at 2 4 6. cbn [fst snd].
    rewrite infoAt_touchInfo.
    assert (Hf : filter (λ v, (infoAt (touchInfo m a) v).1 = true) l
                 = filter (λ v, (infoAt m v).1 = true) l).
    { apply list_filter_iff. intros x. by rewrite infoAt_touchInfo. }
    assert (Hm : map (λ v, nodeLine toString src v (infoAt (touchInfo m a) v))
                   (filter (λ v, (infoAt m v).1 = true) l)
                 = map (λ v, nodeLine toString src v (infoAt m v))
                     (filter (λ v, (infoAt m v).1 = true) l)).
    { apply map_ext. intros x. by rewrite infoAt_touchInfo. }
    destruct (infoAt m a).1 eqn:Ha.
    + destruct (IH (touchInfo m a)
                  (out ++ [nodeLine toString src a (infoAt m a)]))
        as (IH1 & IH2 & IH3).
      rewrite IH1, Hf, Hm. split_and!.
      * rewrite filter_cons_True by done. cbn [map].
        by rewrite <- app_assoc.
      * intros w. by rewrite IH2, infoAt_touchInfo.
      * intros Hall. rewrite IH3.
        -- apply touchInfo_present, Hall. set_solver.
        -- intros v Hv. rewrite touchInfo_present; apply Hall; set_solver.
    + destruct (IH (touchInfo m a) out) as (IH1 & IH2 & IH3).
      rewrite IH1, Hf, Hm. split_and!.
      * rewrite filter_cons_False; [done|]. by rewrite Ha.
      * intros w. by rewrite IH2, infoAt_touchInfo.
      * intros Hall. rewrite IH3.
        -- apply touchInfo_present, Hall. set_solver.
        -- intros v Hv. rewrite touchInfo_present; apply Hall; set_solver.
Qed.

Lemma printEdges_fold (m : gmap T (bool * nat)) adj (l : list (nat * T)) out :
  let r := foldl (printEdges (T := T)) (out, m, adj) l in
  r.1.1 = out ++ flat_map (λ iv, if (infoAt m iv.2).1
                                 then map (edgeLine iv.1)
                                        (ascending (setAt adj iv.1))
                                 else []) l ∧
  ((∀ iv, iv ∈ l → is_Some (m !! iv.2) ∧ is_Some (adj !! iv.1)) →
   r.1.2 = m ∧ r.2 = adj).
Proof.
  revert m adj out. induction l as [|[i v] l IH]; intros m adj out;
    cbn [foldl].
  - cbn. by rewrite app_nil_r.
  - unfold printEdges at 2 4 6. cbn [fst snd].
    rewrite infoAt_touchInfo, setAt_touch.
    assert (Hext : ∀ m' adj',
      (∀ w, infoAt m' w = infoAt m w) → (∀ k, setAt adj' k = setAt adj k) →
      flat_map (λ iv : nat * T, if (infoAt m' iv.2).1
                      then map (edgeLine iv.1) (ascending (setAt adj' iv.1))
                      else []) l
      = flat_map (λ iv : nat * T, if (infoAt m iv.2).1
                      then map (edgeLine iv.1) (ascending (setAt adj iv.1))
                      else []) l).
    { intros m' adj' Hm' Hadj'. apply flat_map_ext_elem. intros iv _.
      by rewrite Hm', Hadj'. }
    destruct (infoAt m v).1 eqn:Hv.
    + destruct (IH (touchInfo m v) (touch adj i)
                  (out ++ map (edgeLine i) (ascending (setAt adj i))))
        as (IH1 & IH2).
      cbn zeta in *. rewrite IH1. split.
      * cbn [flat_map fst snd]. rewrite Hv, <- app_assoc. f_equal. f_equal.
        apply Hext; intros; [apply infoAt_touchInfo|apply setAt_touch].
      * intros Hall.
        destruct (Hall (i, v)) as [Hmv Hai]; [set_solver|]. cbn in Hmv, Hai.
        rewrite (touchInfo_present m v Hmv) in *.
        rewrite (touch_present adj i Hai) in *.
        apply IH2. intros iv Hiv. apply Hall. set_solver.
    + destruct (IH (touchInfo m v) adj out) as (IH1 & IH2).
      cbn zeta in *. rewrite IH1. split.
      * cbn [flat_map fst snd]. rewrite Hv. cbn [app]. f_equal.
        apply Hext; intros; [apply infoAt_touchInfo|done].
      * intros Hall.
        destruct (Hall (i, v)) as [Hmv Hai]; [set_solver|]. cbn in Hmv.
        rewrite (touchInfo_present m v Hmv) in *.
        apply IH2. intros iv Hiv. apply Hall. set_solver.
Qed.

Lemma elem_of_zip_seq (l : list T) i v :
  (i, v) ∈ zip (seq 0 (length l)) l → l !! i = Some v.
Proof.
  intros (k & Hk)%list_elem_of_lookup.
  apply lookup_zip_with_Some in Hk as (i' & v' & [= <- <-] & Hi & Hv).
  apply lookup_seq in Hi as [-> _]. done.
Qed.

(** X12. [print] writes one line for each value of [getNodes], in that
    order, and then one line for each edge, ordered by tail id and then by
    head id; nothing is written for an inactive value, and the state is
    left unchanged. *)
Theorem print_lines g :
  constructed g →
  print toString g
  = (map (λ v, nodeLine toString (sources g) v (infoAt (nodeMap g) v))
       (getNodes g).1
     ++ flat_map (λ i, map (edgeLine i) (ascending (setAt (adjList g) i)))
          (seq 0 (length (nodes g))),
     g).
Proof.
  intros Hwf%constructed_wf. unfold print.
  assert (Hknown : ∀ v, v ∈ nodes g → is_Some (nodeMap g !! v)).
  { intros v [i Hi]%list_elem_of_lookup.
    apply (wf_ids g Hwf) in Hi as [b Hb]. eauto. }
  destruct (printNode_fold (sources g) (nodeMap g) (nodes g) [])
    as (H1 & _ & H3).
  specialize (H3 Hknown).
  destruct (foldl (printNode toString (sources g)) ([], nodeMap g) (nodes g))
    as [out1 m1].
  cbn [fst snd] in *. subst m1 out1.
  destruct (printEdges_fold (nodeMap g) (adjList g)
              (zip (seq 0 (length (nodes g))) (nodes g))
              (map (λ v, nodeLine toString (sources g) v (infoAt (nodeMap g) v))
                 (filter (λ v, (infoAt (nodeMap g) v).1 = true) (nodes g))))
    as (E1 & E2).
  cbn zeta in *. destruct E2 as [E2 E3].
  { intros [i v] Hiv%elem_of_zip_seq. cbn [fst snd]. split.
    - apply Hknown. by eapply list_elem_of_lookup_2.
    - apply (wf_adj_dom g Hwf). by eapply lookup_lt_Some. }
  cbn [app]. rewrite E1, E2, E3, getNodes_filter. f_equal; [|by destruct g].
  f_equal.
  rewrite <- (flat_map_fst_zip
    (λ i, map (edgeLine i) (ascending (setAt (adjList g) i)))
    (seq 0 (length (nodes g))) (nodes g)) by apply length_seq.
  apply flat_map_ext_elem. intros [i v] Hiv%elem_of_zip_seq. cbn [fst snd].
  destruct (infoAt (nodeMap g) v).1 eqn:Hact; [done|].
  assert (Hid : hasId g v i) by (by apply (wf_ids g Hwf)).
  destruct Hid as [b Hb]. unfold infoAt in Hact. rewrite Hb in Hact.
  cbn in Hact. subst b.
  destruct (wf_inactive g Hwf v i Hb) as [-> _].
  by rewrite ascending_empty.
Qed.

(** X10. None of the queries changes a graph built by the public
    operations, although each of them reads the maps through [operator[]]. *)
Theorem queries_keep_the_state g a b reverseOrder :
  constructed g →
  (getNodes g).2 = g ∧
  (isConnected a b g).2 = g ∧
  (print toString g).2 = g ∧
  ∃ l, topologicalSort reverseOrder g = Done (l, g).
Proof.
  intros Hg. pose proof (constructed_wf g Hg) as Hwf. split_and!.
  - by apply getNodes_state.
  - by apply isConnected_state.
  - unfold print.
    assert (Hknown : ∀ v, v ∈ nodes g → is_Some (nodeMap g !! v)).
    { intros v [i Hi]%list_elem_of_lookup.
      apply (wf_ids g Hwf) in Hi as [b' Hb]. eauto. }
    destruct (printNode_fold (sources g) (nodeMap g) (nodes g) [])
      as (_ & _ & H3).
    specialize (H3 Hknown).
    destruct (foldl (printNode toString (sources g)) ([], nodeMap g) (nodes g))
      as [out1 m1].
    cbn [fst snd] in *. subst m1.
    destruct (printEdges_fold (nodeMap g) (adjList g)
                (zip (seq 0 (length (nodes g))) (nodes g)) out1) as (_ & E2).
    cbn zeta in *. destruct E2 as [E2 E3].
    { intros [i v] Hiv%elem_of_zip_seq. cbn [fst snd]. split.
      - apply Hknown. by eapply list_elem_of_lookup_2.
      - apply (wf_adj_dom g Hwf). by eapply lookup_lt_Some. }
    cbn [snd]. rewrite E2, E3. by destruct g.
  - destruct (topologicalSort_spec g reverseOrder Hwf)
      as (ids & vs & Hrun & _).
    eauto.
Qed.

End PrintProperties.

(** ** Pruning, seen from outside *)

Section MorePruning.
Context {T : Type} `{Countable T}.
Implicit Types (g : Graph T) (v w : T) (i j k : nat).

(** On a well-formed graph the stack loop leaves the adjacency map alone,
    so pruning is the fold of [pruneStep] over the graph itself, with the
    reachable ids as the visited set. *)
Lemma removeNonReachableIn_unfold g :
  wf g →
  ∃ vis, (∀ x, x ∈ vis ↔ reachableFrom (adjList g) (sources g) x) ∧
         ∀ order,
           removeNonReachableIn order g = Done (foldl (pruneStep vis) g order).
Proof.
  intros Hwf.
  destruct (removeNonReachable_visited g)
    as (adj' & vis & Hrun & _ & _ & Hvis).
  exists vis. split; [done|]. intros order.
  unfold removeNonReachableIn. rewrite Hrun. cbn [bind fst snd].
  apply reachLoop_frame in Hrun as (_ & _ & Hsame).
  rewrite Hsame; [by destruct g|].
  intros k [Hk|Hk].
  - apply (wf_adj_dom g Hwf), (wf_src g Hwf).
    by apply elem_of_reverse, elem_of_ascending in Hk.
  - apply elem_of_idsOf in Hk as [Hk|[k0 Hk]]; [set_solver|].
    apply (wf_adj_dom g Hwf). by apply (wf_bound g Hwf) in Hk as [_ ?].
Qed.

Lemma pruneStep_cases vis g a :
  (∃ i, nodeMap g !! a = Some (true, i) ∧ (i ∉ vis) ∧
        pruneStep vis g a = removeNode a g) ∨
  ((∀ i, nodeMap g !! a = Some (true, i) → i ∈ vis) ∧ pruneStep vis g a = g).
Proof.
  unfold pruneStep. destruct (nodeMap g !! a) as [[[] i]|] eqn:Ha.
  - destruct (decide (i ∈ vis)) as [Hi|Hi].
    + right. split; [by intros ? [= <-]|done].
    + left. by exists i.
  - right. split; [by intros ? [=]|done].
  - right. split; [by intros ? [=]|done].
Qed.

Lemma prune_sources vis order g :
  sources (foldl (pruneStep vis) g order) = sources g.
Proof.
  revert g. induction order as [|a order IH]; intros g; cbn [foldl]; [done|].
  rewrite IH.
  destruct (pruneStep_cases vis g a) as [(i & _ & _ & ->)|[_ ->]]; [|done].
  apply removeNode_sources.
Qed.

Lemma prune_fixed vis order g :
  (∀ v i, nodeMap g !! v = Some (true, i) → i ∈ vis) →
  foldl (pruneStep vis) g order = g.
Proof.
  intros Hall. induction order as [|a order IH]; cbn [foldl]; [done|].
  destruct (pruneStep_cases vis g a) as [(i & Ha & Hi & _)|[_ ->]]; [|done].
  by apply Hall in Ha.
Qed.

(** The ids the fold deactivates. *)
Lemma prune_edge vis order g x y :
  wf g →
  y ∈ setAt (adjList (foldl (pruneStep vis) g order)) x
  ↔ y ∈ setAt (adjList g) x ∧
    (∀ v, v ∈ order → nodeMap g !! v = Some (true, x) → x ∈ vis) ∧
    (∀ v, v ∈ order → nodeMap g !! v = Some (true, y) → y ∈ vis).
Proof.
  revert g. induction order as [|a order IH]; intros g Hwf; cbn [foldl].
  { split; [|by intros [? _]]. intros Hxy.
    split_and!; [done|..]; by intros v ?%elem_of_nil. }
  rewrite IH by (by apply wf_pruneStep).
  destruct (pruneStep_cases vis g a) as [(i & Ha & Hi & ->)|[Hkeep ->]].
  - rewrite (removeNode_edge g a true i x y Hwf Ha).
    assert (Hnm : ∀ v k, nodeMap (removeNode a g) !! v = Some (true, k)
                         ↔ v ≠ a ∧ nodeMap g !! v = Some (true, k)).
    { intros v k. destruct (decide (a = v)) as [<-|Hne].
      - rewrite (removeNode_nodeMap g a true i Ha), lookup_insert_eq.
        split; [done|by intros [? _]].
      - rewrite removeNode_nodeMap_ne by done.
        split; [by intros ?; split|by intros [_ ?]]. }
    split.
    + intros ((Hxy & Hxi & Hyi) & Hx & Hy). split_and!; [done|..].
      * intros v [->|Hv]%elem_of_cons Hvx; [congruence|].
        apply (Hx v Hv), Hnm. split; [|done]. intros ->. congruence.
      * intros v [->|Hv]%elem_of_cons Hvy; [congruence|].
        apply (Hy v Hv), Hnm. split; [|done]. intros ->. congruence.
    + intros (Hxy & Hx & Hy). split_and!; [done|..].
      * intros ->. apply Hi, (Hx a); [set_solver|done].
      * intros ->. apply Hi, (Hy a); [set_solver|done].
      * intros v Hv [_ Hvx]%Hnm. apply (Hx v); [set_solver|done].
      * intros v Hv [_ Hvy]%Hnm. apply (Hy v); [set_solver|done].
  - split.
    + intros (Hxy & Hx & Hy). split_and!; [done|..].
      * intros v [->|Hv]%elem_of_cons Hvx; [by eapply Hkeep|by eapply Hx].
      * intros v [->|Hv]%elem_of_cons Hvy; [by eapply Hkeep|by eapply Hy].
    + intros (Hxy & Hx & Hy). split_and!; [done|..].
      * intros v Hv. apply Hx. set_solver.
      * intros v Hv. apply Hy. set_solver.
Qed.

Lemma removeNode_lookup_ge g v k :
  wf g → length (nodes g) ≤ k →
  adjList (removeNode v g) !! k = adjList g !! k ∧
  revAdjList (removeNode v g) !! k = revAdjList g !! k.
Proof.
  intros Hwf Hk. unfold removeNode.
  destruct (nodeMap g !! v) as [[b i]|] eqn:Hv; [|done].
  pose proof (wf_id_lt g v b i Hwf Hv) as Hi.
  cbn [adjList revAdjList]. split.
  - rewrite eraseAll_lookup, decide_False.
    + rewrite lookup_insert_ne by lia. unfold touch.
      by rewrite lookup_insert_ne by lia.
    + rewrite elem_of_ascending, setAt_touch, setAt_eraseAll.
      intros Hin.
      assert (Hin' : k ∈ setAt (revAdjList g) i)
        by (destruct (decide (i ∈ _)); set_solver).
      apply (wf_rev_bound g _ _ Hwf) in Hin'. lia.
  - rewrite lookup_insert_ne by lia. unfold touch at 1.
    rewrite lookup_insert_ne by lia.
    rewrite eraseAll_lookup, decide_False; [done|].
    rewrite elem_of_ascending, setAt_touch.
    intros Hin%(wf_bound g Hwf). lia.
Qed.

Lemma prune_lookup_ge vis order g k :
  wf g → length (nodes g) ≤ k →
  adjList (foldl (pruneStep vis) g order) !! k = adjList g !! k ∧
  revAdjList (foldl (pruneStep vis) g order) !! k = revAdjList g !! k.
Proof.
  revert g. induction order as [|a order IH]; intros g Hwf Hk; cbn [foldl];
    [done|].
  destruct (pruneStep_cases vis g a) as [(i & Ha & Hi & ->)|[_ ->]];
    [|by apply IH].
  destruct (removeNode_lookup_ge g a k Hwf Hk) as [<- <-].
  apply IH; [by apply wf_removeNode|by rewrite removeNode_nodes].
Qed.

Lemma setAt_lookup m k : is_Some (m !! k) → m !! k = Some (setAt m k).
Proof. intros [s Hs]. unfold setAt. by rewrite Hs. Qed.

(** Two folds over lists with the same elements end in the same state. *)
Lemma prune_order vis o1 o2 g :
  wf g → (∀ v, v ∈ o1 ↔ v ∈ o2) →
  foldl (pruneStep vis) g o1 = foldl (pruneStep vis) g o2.
Proof.
  intros Hwf Hsame.
  pose proof (wf_prune vis o1 g Hwf) as Hwf1.
  pose proof (wf_prune vis o2 g Hwf) as Hwf2.
  assert (Hadj : ∀ x, setAt (adjList (foldl (pruneStep vis) g o1)) x
                      = setAt (adjList (foldl (pruneStep vis) g o2)) x).
  { intros x. apply set_eq. intros y. rewrite !prune_edge by done.
    by setoid_rewrite Hsame. }
  assert (Hrev : ∀ y, setAt (revAdjList (foldl (pruneStep vis) g o1)) y
                      = setAt (revAdjList (foldl (pruneStep vis) g o2)) y).
  { intros y. apply set_eq. intros x.
    rewrite <- (wf_sym _ Hwf1), <- (wf_sym _ Hwf2). by rewrite Hadj. }
  assert (Hn1 := prune_nodes vis o1 g). assert (Hn2 := prune_nodes vis o2 g).
  assert (Hs1 := prune_sources vis o1 g).
  assert (Hs2 := prune_sources vis o2 g).
  assert (Hnm : nodeMap (foldl (pruneStep vis) g o1)
                = nodeMap (foldl (pruneStep vis) g o2)).
  { apply map_eq. intros v. rewrite !prune_nodeMap.
    destruct (decide (v ∈ o1)) as [Hv|Hv].
    - by rewrite decide_True by (by apply Hsame).
    - by rewrite decide_False by (by rewrite <- Hsame). }
  assert (Hal : adjList (foldl (pruneStep vis) g o1)
                = adjList (foldl (pruneStep vis) g o2)).
  { apply map_eq. intros k.
    destruct (decide (k < length (nodes g))) as [Hk|Hk].
    - rewrite !setAt_lookup, Hadj; [done|..].
      + apply (wf_adj_dom _ Hwf2). by rewrite Hn2.
      + apply (wf_adj_dom _ Hwf1). by rewrite Hn1.
    - destruct (prune_lookup_ge vis o1 g k Hwf) as [-> _]; [lia|].
      destruct (prune_lookup_ge vis o2 g k Hwf) as [-> _]; [lia|done]. }
  assert (Hrl : revAdjList (foldl (pruneStep vis) g o1)
                = revAdjList (foldl (pruneStep vis) g o2)).
  { apply map_eq. intros k.
    destruct (decide (k < length (nodes g))) as [Hk|Hk].
    - rewrite !setAt_lookup, Hrev; [done|..].
      + apply (wf_rev_dom _ Hwf2). by rewrite Hn2.
      + apply (wf_rev_dom _ Hwf1). by rewrite Hn1.
    - destruct (prune_lookup_ge vis o1 g k Hwf) as [_ ->]; [lia|].
      destruct (prune_lookup_ge vis o2 g k Hwf) as [_ ->]; [lia|done]. }
  destruct (foldl (pruneStep vis) g o1), (foldl (pruneStep vis) g o2).
  cbn in *. congruence.
Qed.

End MorePruning.

Section PruningProperties.
Context {T : Type} `{Countable T}.
Implicit Types (g : Graph T) (v w : T) (i j k : nat).

Lemma keys_known g order v :
  order ≡ₚ (map_to_list (nodeMap g)).*1 → known g v → v ∈ order.
Proof.
  intros Horder [x Hx]. rewrite Horder. apply list_elem_of_fmap.
  exists (v, x). split; [done|]. by apply elem_of_map_to_list.
Qed.

Lemma prune_hasId vis order g v i :
  hasId (foldl (pruneStep vis) g order) v i ↔ hasId g v i.
Proof.
  unfold hasId. rewrite prune_nodeMap.
  destruct (decide (v ∈ order)); [|done].
  destruct (nodeMap g !! v) as [[[] k]|]; cbn; try done.
  destruct (decide (k ∈ vis)); [done|].
  split; intros [b Hb]; injection Hb as _ <-; eauto.
Qed.

Lemma prune_active vis order g v :
  (known g v → v ∈ order) →
  active (foldl (pruneStep vis) g order) v
  ↔ ∃ i, nodeMap g !! v = Some (true, i) ∧ i ∈ vis.
Proof.
  intros Hin. unfold active. rewrite prune_nodeMap.
  destruct (decide (v ∈ order)) as [Hv|Hv].
  - destruct (nodeMap g !! v) as [[[] k]|]; cbn.
    + destruct (decide (k ∈ vis)).
      * split; [intros [i [= <-]]; eauto | intros (i & [= <-] & _); eauto].
      * split; [by intros [? ?] | by intros (i & [= <-] & ?)].
    + split; [by intros [? ?] | by intros (? & ? & _)].
    + split; [by intros [? ?] | by intros (? & ? & _)].
  - split.
    + intros [i Hi]. exfalso. apply Hv, Hin. unfold known. by rewrite Hi.
    + intros (i & Hi & _). exfalso. apply Hv, Hin. unfold known.
      by rewrite Hi.
Qed.

Lemma reachable_step adj src a b :
  reachableFrom adj src a → edge adj a b → reachableFrom adj src b.
Proof.
  intros (s & Hs & Hsa) Hab. exists s. split; [done|]. by eapply rtc_r.
Qed.

(** Pruning keeps the edges between reachable ids and the reachable set. *)
Lemma prune_reachable vis order g :
  wf g → (∀ x, x ∈ vis ↔ reachableFrom (adjList g) (sources g) x) →
  ∀ x, reachableFrom (adjList (foldl (pruneStep vis) g order))
         (sources (foldl (pruneStep vis) g order)) x
       ↔ reachableFrom (adjList g) (sources g) x.
Proof.
  intros Hwf Hvis x. rewrite prune_sources. split.
  - intros (s & Hs & Hsx). exists s. split; [done|]. clear Hs.
    induction Hsx as [|a b c Hab _ IH]; [done|].
    eapply rtc_l; [|exact IH]. unfold edge in *.
    by apply (prune_edge vis order g a b Hwf) in Hab as [? _].
  - intros (s & Hs & Hsx). exists s. split; [done|].
    assert (Hsv : s ∈ vis) by (apply Hvis; by exists s).
    clear Hs. induction Hsx as [|a b c Hab _ IH]; [done|].
    assert (Hbv : b ∈ vis).
    { apply Hvis. eapply reachable_step; [by apply Hvis|done]. }
    eapply rtc_l; [|by apply IH]. unfold edge.
    apply (prune_edge vis order g a b Hwf). by split_and!.
Qed.

(** X15. The result of [removeNonReachable] does not depend on the order in
    which the hash map delivers its keys. *)
Theorem removeNonReachable_order_irrelevant g o1 o2 :
  constructed g →
  o1 ≡ₚ (map_to_list (nodeMap g)).*1 →
  o2 ≡ₚ (map_to_list (nodeMap g)).*1 →
  removeNonReachableIn o1 g = removeNonReachableIn o2 g.
Proof.
  intros Hwf%constructed_wf H1 H2.
  destruct (removeNonReachableIn_unfold g Hwf) as (vis & _ & Hrun).
  rewrite !Hrun. f_equal. apply prune_order; [done|].
  intros v. by rewrite H1, H2.
Qed.

(** X16. Pruning keeps exactly the edges whose tail is reachable from the
    sources: two values are connected afterwards when they were connected
    before and the first one is reachable. *)
Theorem removeNonReachable_edges g order x y :
  constructed g →
  order ≡ₚ (map_to_list (nodeMap g)).*1 →
  ∃ g', removeNonReachableIn order g = Done g' ∧
        ((isConnected x y g').1 = true
         ↔ (isConnected x y g).1 = true ∧
           ∃ i, hasId g x i ∧ reachableFrom (adjList g) (sources g) i).
Proof.
  intros Hwf%constructed_wf Horder.
  destruct (removeNonReachableIn_unfold g Hwf) as (vis & Hvis & Hrun).
  eexists. split; [apply Hrun|].
  rewrite !isConnected_true. setoid_rewrite prune_hasId. split.
  - intros (i & j & Hx & Hy & Hij).
    apply (prune_edge vis order g i j Hwf) in Hij as (Hij & Hi & _).
    split; [by exists i, j|]. exists i. split; [done|]. apply Hvis.
    destruct Hx as [[] Hx].
    + apply (Hi x); [|done]. apply (keys_known g); [done|].
      unfold known. by rewrite Hx.
    + destruct (wf_inactive g Hwf x i Hx) as [Hempty _]. set_solver.
  - intros ((i & j & Hx & Hy & Hij) & i' & Hx' & Hr).
    assert (i' = i) as -> by (destruct Hx, Hx'; congruence).
    exists i, j. split_and!; [done..|].
    apply (prune_edge vis order g i j Hwf). split_and!; [done|..].
    + intros _ _ _. by apply Hvis.
    + intros _ _ _. apply Hvis. by eapply reachable_step.
Qed.

(** X17. Pruning does not change which ids are reachable from the sources,
    and pruning a pruned graph, in any order, changes nothing. *)
Theorem removeNonReachable_idempotent g order g' :
  constructed g →
  order ≡ₚ (map_to_list (nodeMap g)).*1 →
  removeNonReachableIn order g = Done g' →
  (∀ i, reachableFrom (adjList g') (sources g') i
        ↔ reachableFrom (adjList g) (sources g) i) ∧
  ∀ order', removeNonReachableIn order' g' = Done g'.
Proof.
  intros Hwf%constructed_wf Horder Hrun.
  destruct (removeNonReachableIn_unfold g Hwf) as (vis & Hvis & Hrun').
  rewrite Hrun' in Hrun. injection Hrun as <-.
  pose proof (prune_reachable vis order g Hwf Hvis) as Hreach.
  split; [done|]. intros order'.
  pose proof (wf_prune vis order g Hwf) as Hwf'.
  destruct (removeNonReachableIn_unfold _ Hwf') as (vis' & Hvis' & ->).
  f_equal. apply prune_fixed. intros v i Hv.
  assert (Hact : active (foldl (pruneStep vis) g order) v) by (by exists i).
  apply prune_active in Hact as (i' & Hi' & Hin);
    [|by apply keys_known].
  assert (Hid : hasId g v i).
  { apply (prune_hasId vis order). by exists true. }
  destruct Hid as [b Hb]. assert (i' = i) as -> by congruence.
  by apply Hvis', Hreach, Hvis.
Qed.

Lemma inactive_reachable_is_source g v i :
  wf g → nodeMap g !! v = Some (false, i) →
  reachableFrom (adjList g) (sources g) i → i ∈ sources g.
Proof.
  intros Hwf Hv (s & Hs & Hsi).
  apply rtc_inv_r in Hsi as [->|(k & _ & Hki)]; [done|].
  destruct (wf_inactive g Hwf v i Hv) as [_ Hrev].
  apply (wf_sym g Hwf) in Hki. set_solver.
Qed.

(** X13. [topologicalSort] returns on every graph built by the public
    operations, cyclic or not, without changing it; the result lists each
    value whose id is reachable from the sources exactly once, and an
    inactive value only when it is itself a source. *)
Theorem topologicalSort_lists_reachable g reverseOrder :
  constructed g →
  ∃ l, topologicalSort reverseOrder g = Done (l, g) ∧ NoDup l ∧
       (∀ v, v ∈ l ↔ ∃ i, hasId g v i ∧
                          reachableFrom (adjList g) (sources g) i) ∧
       (∀ v, v ∈ l → ¬ active g v → ∃ i, hasId g v i ∧ i ∈ sources g).
Proof.
  intros Hg. pose proof (constructed_wf g Hg) as Hwf.
  destruct (topologicalSort_covers g reverseOrder Hg)
    as (l & Hrun & Hnd & Hcov).
  exists l. split_and!; [done..|].
  intros v (i & Hid & Hr)%Hcov Hv. exists i. split; [done|].
  destruct Hid as [[] Hi]; [exfalso; apply Hv; by exists i|].
  by eapply inactive_reachable_is_source.
Qed.

(** X14. [topologicalSort(true)] is the reverse of
    [topologicalSort(false)]; and without any assumption on cycles, an edge
    [a -> b] whose tail is reachable is respected by the sort unless [b]
    leads back to [a]. *)
Theorem topologicalSort_respects_edges_off_cycles g :
  constructed g →
  ∃ l, topologicalSort false g = Done (l, g) ∧
       topologicalSort true g = Done (reverse l, g) ∧
       ∀ a b ia ib,
         hasId g a ia → hasId g b ib →
         edge (adjList g) ia ib →
         reachableFrom (adjList g) (sources g) ia →
         ¬ rtc (edge (adjList g)) ib ia →
         before a b l ∧ before b a (reverse l).
Proof.
  intros Hwf%constructed_wf.
  destruct (topologicalSort_spec g false Hwf)
    as (ids & vs & Hrun & HF & _ & Hcov & Hord).
  destruct (topologicalSort_spec g true Hwf) as (ids' & vs' & Hrun' & _).
  assert (vs' = vs) as ->.
  { unfold topologicalSort in Hrun, Hrun'.
    destruct (forEach _ _ _) as [st| |]; cbn in Hrun, Hrun'; try done.
    injection Hrun as Hr _. injection Hrun' as Hr' _.
    rewrite Hr' in Hr. by apply (inj reverse) in Hr. }
  exists (reverse vs). rewrite reverse_involutive.
  split_and!; try done.
  intros a b ia ib Ha Hb Hab Hreach Hback.
  assert (Hbefore : before b a vs).
  { destruct (Hord ia ib) as [Hbf|Hcyc]; [by apply Hcov|done| |done].
    destruct (before_Forall2 _ _ _ _ _ Hbf HF) as (b' & a' & Hb' & Ha' & ?).
    apply (wf_ids g Hwf) in Ha, Hb. congruence. }
  split; [by apply before_reverse|done].
Qed.

(** X18. Once the graph is pruned, every value of [getNodes] is in the
    result of [topologicalSort]. *)
Theorem pruned_nodes_are_sorted g order g' reverseOrder :
  constructed g →
  order ≡ₚ (map_to_list (nodeMap g)).*1 →
  removeNonReachableIn order g = Done g' →
  ∃ l, topologicalSort reverseOrder g' = Done (l, g') ∧
       ∀ v, v ∈ (getNodes g').1 → v ∈ l.
Proof.
  intros Hg Horder Hrun.
  assert (Hg' : constructed g') by (by eapply c_removeNonReachable).
  pose proof (constructed_wf g Hg) as Hwf.
  destruct (topologicalSort_covers g' reverseOrder Hg')
    as (l & Hsort & _ & Hcov).
  exists l. split; [done|]. intros v [_ Hv]%elem_of_getNodes.
  apply Hcov.
  destruct (removeNonReachableIn_unfold g Hwf) as (vis & Hvis & Hrun').
  rewrite Hrun' in Hrun. injection Hrun as <-.
  apply prune_active in Hv as (i & Hi & Hin); [|by apply keys_known].
  exists i. split.
  - apply prune_hasId. by exists true.
  - by apply (prune_reachable vis order g Hwf Hvis), Hvis.
Qed.

End PruningProperties.

Section InsertionOrder.
Context {T : Type} `{Countable T}.
Implicit Types (g : Graph T) (v w : T) (i j k : nat).

(** X19. A value inserted for the first time goes to the end of
    [getNodes]; a known value that is added again is listed at the position
    of its first insertion, the others keeping theirs. *)
Theorem addNode_getNodes g v s :
  constructed g →
  (getNodes (addNode v s g)).1
  = if decide (known g v)
    then filter (λ w, (infoAt (nodeMap g) w).1 = true ∨ w = v) (nodes g)
    else (getNodes g).1 ++ [v].
Proof.
  intros Hwf%constructed_wf. rewrite !getNodes_filter.
  destruct (decide (known g v)) as [[[b i] Hv]|Hv].
  - destruct (addNode_known_fields g v s b i Hv) as (-> & _).
    apply list_filter_iff. intros w. rewrite !infoAt_active. unfold active.
    destruct (decide (v = w)) as [<-|Hne].
    + rewrite (addNode_known_id g v s b i Hv). split; eauto.
    + rewrite addNode_nodeMap_ne by done.
      split; [by left|]. intros [?|?]; [done|congruence].
  - apply eq_None_not_Some in Hv.
    pose proof (wf_unknown_fresh g v Hwf Hv) as Hfresh.
    unfold addNode. rewrite Hv. cbn [nodes nodeMap].
    rewrite filter_app. f_equal.
    + generalize (length (nodes g)). intros n.
      generalize dependent (nodes g). clear Hwf. intros l Hfresh.
      induction l as [|w l IH]; [done|].
      assert (v ≠ w) by set_solver.
      assert (Hw : infoAt (<[v:=(true, n)]> (nodeMap g)) w
                   = infoAt (nodeMap g) w).
      { unfold infoAt. by rewrite lookup_insert_ne. }
      destruct (decide ((infoAt (nodeMap g) w).1 = true)) as [Hact|Hact].
      * rewrite !filter_cons_True by (by rewrite ?Hw).
        f_equal. apply IH. set_solver.
      * rewrite !filter_cons_False by (by rewrite ?Hw).
        apply IH. set_solver.
    + rewrite filter_cons_True; [done|].
      unfold infoAt. by rewrite lookup_insert_eq.
Qed.

End InsertionOrder.


(** ** test/Misc/Graph.C, checked *)

Module GraphTestChecks.
Import GraphTest.

(** [Node::operator==] is equality of both fields. *)
Lemma nodeEq_eq a b : nodeEq a b = true ↔ a = b.
Proof.
  unfold nodeEq. rewrite andb_true_iff, !bool_decide_eq_true.
  destruct a, b; cbn. split; [by intros [-> ->]|by intros [= -> ->]].
Qed.

(** The display string does not identify a node. *)
Example nodeString_not_injective :
  nodeString (mkNode "node1" 2) = nodeString (mkNode "node" 12).
Proof. vm_compute. reflexivity. Qed.

(** Both [CHECK-EXEC: Nodes in the graph: 7] lines. *)
Example main_sizes :
  length (getNodes built).1 = 7 ∧
  (g ← withExtraEdges; Some (length (getNodes g).1)) = Some 7.
Proof. split; vm_compute; reflexivity. Qed.

(** The lines [G.print()] writes are the ones the test expects. *)
Example main_output :
  mainOutput
  = Some (map (λ s, s +:+ newline)
            ["node0: #0 (source)"; "node1: #1"; "node2: #2"; "node3: #3";
             "0 -> 1"; "0 -> 3"; "1 -> 2"; "2 -> 3"]).
Proof. vm_compute. reflexivity. Qed.

End GraphTestChecks.

(** ** Instances of the further properties *)

Lemma constructed_oneEdge : constructed oneEdge.
Proof. apply c_addEdge, c_addNode, c_empty. Qed.

Lemma constructed_extended : constructed extended.
Proof.
  do 2 apply c_addEdge. unfold chain. cbn [foldl seq].
  repeat first [apply c_addEdge | apply c_addNode | apply c_empty
               | rewrite decide_True by done | rewrite decide_False by done].
Qed.

Lemma constructed_severed : constructed severed.
Proof. apply c_removeNode, constructed_extended. Qed.

Lemma severed_keys :
  [0; 1; 2; 3; 4; 5; 6] ≡ₚ (map_to_list (nodeMap severed)).*1.
Proof. apply (bool_decide_unpack _). vm_compute. exact I. Qed.

Lemma severed_pruned :
  removeNonReachableIn [0; 1; 2; 3; 4; 5; 6] severed = Done pruned.
Proof. vm_compute. reflexivity. Qed.

(** Adding the edge back from [1] to [0] does not disturb [0 -> 1]. *)
Lemma addEdge_adds_one_edge_witness :
  (isConnected 0 1 (addEdge 1 0 oneEdge)).1 = true
  ↔ (0 = 1 ∧ 1 = 0) ∨ (isConnected 0 1 oneEdge).1 = true.
Proof.
  apply (addEdge_adds_one_edge oneEdge 1 0 0 1). apply constructed_oneEdge.
Defined.

(** Removing [node4] from the test's graph. *)
Lemma removeNode_frame_witness :
  (∀ x y, x ≠ 4 → y ≠ 4 →
     (isConnected x y (removeNode 4 extended)).1
     = (isConnected x y extended).1) ∧
  (getNodes (removeNode 4 extended)).1
  = filter (λ w, w ≠ 4) (getNodes extended).1 ∧
  nodes (removeNode 4 extended) = nodes extended ∧
  sources (removeNode 4 extended) = sources extended.
Proof. apply (removeNode_frame extended 4). apply constructed_extended. Defined.

(** The removed value [1] of [removedHead]. *)
Lemma inactive_is_isolated_witness :
  (isConnected 1 0 removedHead).1 = false ∧
  (isConnected 0 1 removedHead).1 = false.
Proof.
  apply (inactive_is_isolated removedHead 1 0).
  - apply c_removeNode, constructed_oneEdge.
  - intros [i Hi]. vm_compute in Hi. discriminate.
Defined.

Lemma getNodes_exact_witness :
  NoDup (getNodes severed).1 ∧
  (getNodes severed).1 `sublist_of` nodes severed ∧
  ∀ v, v ∈ (getNodes severed).1 ↔ active severed v.
Proof. apply (getNodes_exact severed). apply constructed_severed. Defined.

Lemma ids_index_the_node_store_witness :
  NoDup (nodes extended) ∧
  (∀ v i, hasId extended v i ↔ nodes extended !! i = Some v) ∧
  (∀ i j, j ∈ setAt (adjList extended) i →
          i < length (nodes extended) ∧ j < length (nodes extended)) ∧
  (∀ j i, i ∈ setAt (revAdjList extended) j →
          i < length (nodes extended) ∧ j < length (nodes extended)) ∧
  (∀ s, s ∈ sources extended → s < length (nodes extended)).
Proof.
  apply (ids_index_the_node_store extended). apply constructed_extended.
Defined.

Lemma queries_keep_the_state_witness :
  (getNodes extended).2 = extended ∧
  (isConnected 0 3 extended).2 = extended ∧
  (print pretty extended).2 = extended ∧
  ∃ l, topologicalSort false extended = Done (l, extended).
Proof.
  apply (queries_keep_the_state pretty extended 0 3 false).
  apply constructed_extended.
Defined.

Lemma print_lines_witness :
  print pretty severed
  = (map (λ v, nodeLine pretty (sources severed) v
                 (infoAt (nodeMap severed) v))
       (getNodes severed).1
     ++ flat_map
          (λ i, map (edgeLine i) (ascending (setAt (adjList severed) i)))
          (seq 0 (length (nodes severed))),
     severed).
Proof. apply (print_lines pretty severed). apply constructed_severed. Defined.

(** [extended] has the cycle [0 -> 1 -> 2 -> 3 -> 4 -> 0]. *)
Lemma topologicalSort_lists_reachable_witness :
  ∃ l, topologicalSort false extended = Done (l, extended) ∧ NoDup l ∧
       (∀ v, v ∈ l ↔ ∃ i, hasId extended v i ∧
               reachableFrom (adjList extended) (sources extended) i) ∧
       (∀ v, v ∈ l → ¬ active extended v →
             ∃ i, hasId extended v i ∧ i ∈ sources extended).
Proof.
  apply (topologicalSort_lists_reachable extended false).
  apply constructed_extended.
Defined.

Lemma removeNonReachable_order_irrelevant_witness :
  removeNonReachableIn [6; 5; 4; 3; 2; 1; 0] severed
  = removeNonReachableIn [0; 1; 2; 3; 4; 5; 6] severed.
Proof.
  apply (removeNonReachable_order_irrelevant severed).
  - apply constructed_severed.
  - apply (bool_decide_unpack _). vm_compute. exact I.
  - apply severed_keys.
Defined.

(** The edge [5 -> 6] of [severed] has an unreachable tail. *)
Lemma removeNonReachable_edges_witness :
  ∃ g', removeNonReachableIn [0; 1; 2; 3; 4; 5; 6] severed = Done g' ∧
        ((isConnected 5 6 g').1 = true
         ↔ (isConnected 5 6 severed).1 = true ∧
           ∃ i, hasId severed 5 i ∧
                reachableFrom (adjList severed) (sources severed) i).
Proof.
  apply (removeNonReachable_edges severed [0; 1; 2; 3; 4; 5; 6] 5 6).
  - apply constructed_severed.
  - apply severed_keys.
Defined.

Lemma removeNonReachable_idempotent_witness :
  (∀ i, reachableFrom (adjList pruned) (sources pruned) i
        ↔ reachableFrom (adjList severed) (sources severed) i) ∧
  ∀ order', removeNonReachableIn order' pruned = Done pruned.
Proof.
  apply (removeNonReachable_idempotent severed [0; 1; 2; 3; 4; 5; 6] pruned).
  - apply constructed_severed.
  - apply severed_keys.
  - apply severed_pruned.
Defined.

Lemma pruned_nodes_are_sorted_witness :
  ∃ l, topologicalSort false pruned = Done (l, pruned) ∧
       ∀ v, v ∈ (getNodes pruned).1 → v ∈ l.
Proof.
  apply (pruned_nodes_are_sorted severed [0; 1; 2; 3; 4; 5; 6] pruned false).
  - apply constructed_severed.
  - apply severed_keys.
  - apply severed_pruned.
Defined.

(** In [extended] the edge [4 -> 5] leaves the cycle: [5] only leads to
    [6], so [4] comes before [5] although the graph is cyclic. *)
Lemma topologicalSort_respects_edges_off_cycles_witness :
  ∃ l, topologicalSort false extended = Done (l, extended) ∧
       topologicalSort true extended = Done (reverse l, extended) ∧
       before 4 5 l ∧ before 5 4 (reverse l).
Proof.
  destruct (topologicalSort_respects_edges_off_cycles extended
              constructed_extended) as (l & Hf & Ht & Hedge).
  exists l. split; [exact Hf|]. split; [exact Ht|].
  apply (Hedge 4 5 4 5).
  - exists true. vm_compute. reflexivity.
  - exists true. vm_compute. reflexivity.
  - unfold edge. apply (bool_decide_unpack _). vm_compute. exact I.
  - exists 0. split; [apply (bool_decide_unpack _); vm_compute; exact I|].
    assert (Hstep : ∀ a b, bool_decide (b ∈ setAt (adjList extended) a) = true
                           → edge (adjList extended) a b).
    { intros a b Hab. by apply bool_decide_eq_true in Hab. }
    apply (rtc_l _ 0 1); [apply Hstep; vm_compute; reflexivity|].
    apply (rtc_l _ 1 2); [apply Hstep; vm_compute; reflexivity|].
    apply (rtc_l _ 2 3); [apply Hstep; vm_compute; reflexivity|].
    apply (rtc_l _ 3 4); [apply Hstep; vm_compute; reflexivity|].
    apply rtc_refl.
  - assert (H5 : setAt (adjList extended) 5 = {[6]})
      by (vm_compute; reflexivity).
    assert (H6 : setAt (adjList extended) 6 = ∅)
      by (vm_compute; reflexivity).
    intros Hr. apply rtc_inv in Hr as [Heq|(y & Hy & Hr)]; [lia|].
    unfold edge in Hy. rewrite H5 in Hy. apply elem_of_singleton in Hy.
    subst y. apply rtc_inv in Hr as [Heq|(y & Hy & Hr)]; [lia|].
    unfold edge in Hy. rewrite H6 in Hy. exact (not_elem_of_empty y Hy).
Defined.

(** Re-adding [node4] to [severed]. *)
Lemma addNode_getNodes_witness :
  (getNodes (addNode 4 false severed)).1
  = if decide (known severed 4)
    then filter (λ w, (infoAt (nodeMap severed) w).1 = true ∨ w = 4)
           (nodes severed)
    else (getNodes severed).1 ++ [4].
Proof. apply (addNode_getNodes severed 4 false). apply constructed_severed. Defined.
